(** * An in-memory cache with TTL, jitter, janitor and snapshots

    A shallow embedding of the Go package [cache]: the [syncMap] backend
    with the unexported [trait] it embeds, and the exported [Trait] of
    trait.go.  Clock readings, samples of [rand.Float64] and the process
    heap figure are inputs of the operations that read them; the metrics
    and log sinks are a trace of emitted events. *)

From Stdlib Require Import ZArith Lia Floats Permutation Sorted.
From stdpp Require Import gmap strings list fin_maps.

Local Open Scope Z_scope.

(** ** Machine numbers *)

(** [int64] and [time.Duration] are 64-bit two's complement integers. *)
Definition min_int64 : Z := - 2 ^ 63.
Definition max_int64 : Z := 2 ^ 63 - 1.
Definition wrap64 (z : Z) : Z := (z + 2 ^ 63) mod 2 ^ 64 - 2 ^ 63.

(** Conversion [float64(n)] of an integer: the nearest binary64 value. *)
Definition float64_of_int (z : Z) : float :=
  SF2Prim (binary_normalize prec emax z 0 false).

(** Conversion [int64(f)] of a binary64 value: the fraction is dropped
    (rounding towards zero).  A value that does not fit is
    implementation-specific in Go; amd64 yields the smallest [int64]. *)
Definition int_of_float64 (f : float) : Z :=
  match Prim2SF f with
  | S754_zero _ => 0
  | S754_finite s m e =>
      let mag := if 0 <=? e then Z.shiftl (Z.pos m) e
                 else Z.shiftr (Z.pos m) (- e) in
      let z := if s then - mag else mag in
      if (min_int64 <=? z) && (z <=? max_int64) then z else min_int64
  | _ => min_int64
  end.

(** Conversion [int(u)] of a [uint64] on a 64-bit platform. *)
Definition int_of_uint64 (u : Z) : Z := wrap64 u.

(** The binary64 value the literal [0.1] denotes. *)
Definition float_0_1 : float := 0x1.999999999999ap-4%float.
Definition float_0_5 : float := 0x1p-1%float.

(** [time.Duration] units, in nanoseconds. *)
Definition Second : Z := 1000000000.
Definition Minute : Z := 60 * Second.
Definition Hour : Z := 60 * Minute.

(** A [time.Time] is an instant on one time line, counted in nanoseconds;
    [t.Add(d)] is [t + d] and [t.Before(u)] is [t <? u]. *)
Definition Time_Add (t : Z) (d : Z) : Z := t + d.
Definition Time_Before (t u : Z) : bool := t <? u.

(** [time.Unix(sec, nsec)]: the instant [sec] seconds and [nsec]
    nanoseconds after the epoch; [nsec] may lie outside a second. *)
Definition Time_Unix (sec nsec : Z) : Z := sec * Second + nsec.

(** A call that may panic. *)
Inductive outcome (A : Type) : Type :=
| Done (a : A)
| Panic (reason : string).
Arguments Done {A} a.
Arguments Panic {A} reason.

(** ** Package-level declarations *)

Module cache.

Definition DefaultTTL : Z := 0.
Definition UnlimitedTTL : Z := -1.

(** Modelled from the spec: the request-scoped context, of which the
    package reads [skip_read: bool] and [ttl_override: duration] (with 0
    meaning "use default"); the accessors [TTL] and [SkipRead] and the
    constructors of such contexts are not among the source files. *)
Record context : Type := {
  ttl_override : Z;
  skip_read : bool
}.

Definition Background : context :=
  {| ttl_override := DefaultTTL; skip_read := false |}.

Definition WithTTL (ctx : context) (ttl : Z) : context :=
  {| ttl_override := ttl; skip_read := skip_read ctx |}.

Definition WithSkipRead (ctx : context) : context :=
  {| ttl_override := ttl_override ctx; skip_read := true |}.

Definition TTL (ctx : context) : Z := ttl_override ctx.

Definition SkipRead (ctx : context) : bool := skip_read ctx.

(** Modelled from the spec: the configuration record, with the fields the
    source reads and the types it reads them at ([Stats] and [Logger]
    record whether a sink was supplied). *)
Record Config : Type := {
  Name : string;
  TimeToLive : Z;
  ExpirationJitter : float;
  DeleteExpiredAfter : Z;
  DeleteExpiredJobInterval : Z;
  ItemsCountReportInterval : Z;
  HeapInUseSoftLimit : Z;
  CountSoftLimit : Z;
  EvictFraction : float;
  Stats : bool;
  Logger : bool
}.

(** The zero value of [Config], from which [NewSyncMap] starts. *)
Definition zeroConfig : Config :=
  {| Name := ""; TimeToLive := 0; ExpirationJitter := 0%float;
     DeleteExpiredAfter := 0; DeleteExpiredJobInterval := 0;
     ItemsCountReportInterval := 0; HeapInUseSoftLimit := 0;
     CountSoftLimit := 0; EvictFraction := 0%float;
     Stats := false; Logger := false |}.

(** Modelled from the spec: "Absence of a sink makes every logging site a
    no-op"; [logTrait] and its [setup] are not among the source files. *)
Record logTrait : Type := {
  logDebug : bool;
  logImportant : bool
}.

Definition setup (logger : bool) : logTrait :=
  {| logDebug := logger; logImportant := logger |}.

Inductive metric : Type :=
| MetricHit | MetricMiss | MetricExpired | MetricWrite
| MetricDelete | MetricEvict | MetricItems.

(** What reaches the sinks: a log line or a metric update. *)
Inductive event : Type :=
| LogDebug (msg : string)
| LogImportant (msg : string)
| StatAdd (name : metric) (val : float)
| StatSet (name : metric) (val : float).

(** Errors: the two sentinels of the package, the value-carrying expired
    error over the backend's entry type, [io.EOF], and whatever else a
    callback, an encoder or a decoder returns, possibly wrapped. *)
Inductive error (Ent : Type) : Type :=
| ErrNotFound
| ErrExpired
| errExpired (entry : Ent)
| EOF
| errorString (msg : string)
| wrapError (msg : string) (cause : error Ent).
Arguments ErrNotFound {Ent}.
Arguments ErrExpired {Ent}.
Arguments errExpired {Ent} entry.
Arguments EOF {Ent}.
Arguments errorString {Ent} msg.
Arguments wrapError {Ent} msg cause.

(** [errors.Is(err, io.EOF)]. *)
Fixpoint Is_EOF {Ent : Type} (err : error Ent) : bool :=
  match err with
  | EOF => true
  | wrapError _ cause => Is_EOF cause
  | _ => false
  end.

End cache.

(** ** The [syncMap] backend and its [trait] *)

Module SyncMap.

Section Backend.

Context {Value : Type}.

(** [entry] is a cache entry. *)
Record entry : Type := {
  K : string;
  V : Value;
  E : Z
}.

Record trait : Type := {
  Config : cache.Config;
  Stat : bool;
  Log : cache.logTrait
}.

Definition logDebug (c : trait) (msg : string) : list cache.event :=
  if cache.logDebug (Log c) then [cache.LogDebug msg] else [].

Definition logImportant (c : trait) (msg : string) : list cache.event :=
  if cache.logImportant (Log c) then [cache.LogImportant msg] else [].

Definition statAdd (c : trait) (name : cache.metric) (val : float)
  : list cache.event :=
  if Stat c then [cache.StatAdd name val] else [].

Definition newTrait (config : cache.Config) : trait :=
  let config :=
    {| cache.Name := cache.Name config;
       cache.TimeToLive :=
         if cache.TimeToLive config =? 0 then 5 * Minute
         else cache.TimeToLive config;
       cache.ExpirationJitter :=
         if PrimFloat.eqb (cache.ExpirationJitter config) 0 then float_0_1
         else cache.ExpirationJitter config;
       cache.DeleteExpiredAfter :=
         if cache.DeleteExpiredAfter config =? 0 then 24 * Hour
         else cache.DeleteExpiredAfter config;
       cache.DeleteExpiredJobInterval :=
         if cache.DeleteExpiredJobInterval config =? 0 then Hour
         else cache.DeleteExpiredJobInterval config;
       cache.ItemsCountReportInterval :=
         if cache.ItemsCountReportInterval config =? 0 then Minute
         else cache.ItemsCountReportInterval config;
       cache.HeapInUseSoftLimit := cache.HeapInUseSoftLimit config;
       cache.CountSoftLimit := cache.CountSoftLimit config;
       cache.EvictFraction := cache.EvictFraction config;
       cache.Stats := cache.Stats config;
       cache.Logger := cache.Logger config |} in
  {| Config := config;
     Stat := cache.Stats config;
     Log := cache.setup (cache.Logger config) |}.

Definition prepareRead (c : trait) (now : Z)
    (cacheEntry : option entry) (found : bool)
  : outcome (option Value * option (cache.error entry)) * list cache.event :=
  if negb found then
    (Done (None, Some cache.ErrNotFound),
     logDebug c "cache miss" ++ statAdd c cache.MetricMiss 1)
  else
    match cacheEntry with
    | None => (Panic "nil pointer dereference", [])
    | Some e =>
        if Time_Before (E e) now then
          (Done (None, Some (cache.errExpired e)),
           logDebug c "cache key expired" ++ statAdd c cache.MetricExpired 1)
        else
          (Done (Some (V e), None),
           statAdd c cache.MetricHit 1 ++ logDebug c "cache hit")
    end.

(** [r] is the sample [rand.Float64()] returns, read only when jitter
    applies. *)
Definition TTL (c : trait) (ctx : cache.context) (r : float) : Z :=
  let ttl := cache.TTL ctx in
  let ttl := if ttl =? cache.DefaultTTL then cache.TimeToLive (Config c)
             else ttl in
  if PrimFloat.ltb 0 (cache.ExpirationJitter (Config c)) then
    wrap64 (ttl + int_of_float64
                    (float64_of_int ttl * cache.ExpirationJitter (Config c)
                     * (r - float_0_5))%float)
  else ttl.

Definition NotifyWritten (c : trait) : list cache.event :=
  logDebug c "wrote to cache" ++ statAdd c cache.MetricWrite 1.

Definition NotifyDeleted (c : trait) : list cache.event :=
  logDebug c "deleted cache entry" ++ statAdd c cache.MetricDelete 1.

Definition NotifyExpiredAll (c : trait) (cnt : Z) : list cache.event :=
  logImportant c "expired all entries in cache"
  ++ statAdd c cache.MetricExpired (float64_of_int cnt).

Definition NotifyDeletedAll (c : trait) (cnt : Z) : list cache.event :=
  logImportant c "deleted all entries in cache"
  ++ statAdd c cache.MetricDelete (float64_of_int cnt).

(** The cache: the [sync.Map] from [string(key)] to the entry, the trait,
    and what the cache has emitted to its sinks so far. *)
Record syncMap : Type := {
  data : gmap string entry;
  t : trait;
  emitted : list cache.event
}.

Definition NewSyncMap (options : list (cache.Config → cache.Config))
  : syncMap :=
  let cfg := foldl (λ cfg option, option cfg) cache.zeroConfig options in
  {| data := ∅; t := newTrait cfg; emitted := [] |}.

Definition emit (c : syncMap) (m : gmap string entry)
    (evs : list cache.event) : syncMap :=
  {| data := m; t := t c; emitted := emitted c ++ evs |}.

(** [sync.Map.Range] visits the entries in an order of its own: [Range]
    gives, for a map, the sequence of visits. *)
Variable Range : gmap string entry → list (string * entry).

(** [sort.Slice] of the [sort] package, at the element type of
    [evictOldest]. *)
Record en : Type := {
  key : string;
  expireAt : Z
}.

Variable sort_Slice : (en → en → bool) → list en → list en.

(** Read gets value. *)
Definition Read (ctx : cache.context) (k : string) (now : Z) (c : syncMap)
  : outcome (option Value * option (cache.error entry)) * syncMap :=
  if cache.SkipRead ctx then
    (Done (None, Some cache.ErrNotFound), c)
  else
    match data c !! k with
    | Some cacheEntry =>
        let '(res, evs) := prepareRead (t c) now (Some cacheEntry) true in
        (res, emit c (data c) evs)
    | None =>
        let '(res, evs) := prepareRead (t c) now None false in
        (res, emit c (data c) evs)
    end.

(** Write sets value by the key. *)
Definition Write (ctx : cache.context) (k : string) (v : Value)
    (now : Z) (r : float) (c : syncMap)
  : option (cache.error entry) * syncMap :=
  let ttl := TTL (t c) ctx r in
  let key := k in
  (None,
   emit c (<[k := {| V := v; K := key; E := Time_Add now ttl |}]> (data c))
        (NotifyWritten (t c))).

(** Delete removes values by the key. *)
Definition Delete (ctx : cache.context) (k : string) (c : syncMap)
  : option (cache.error entry) * syncMap :=
  (None, emit c (delete k (data c)) (NotifyDeleted (t c))).

(** ExpireAll marks all entries as expired, they can still serve stale
    values. *)
Definition ExpireAll (ctx : cache.context) (start : Z) (c : syncMap)
  : syncMap :=
  let '(m, cnt) :=
    foldl (λ '(m, cnt) '(k, cacheEntry),
             (<[k := {| K := K cacheEntry; V := V cacheEntry; E := start |}]> m,
              cnt + 1))
          (data c, 0) (Range (data c)) in
  emit c m (NotifyExpiredAll (t c) cnt).

(** DeleteAll erases all entries. *)
Definition DeleteAll (ctx : cache.context) (c : syncMap) : syncMap :=
  let '(m, cnt) :=
    foldl (λ '(m, cnt) '(k, _), (delete k m, cnt + 1))
          (data c, 0) (Range (data c)) in
  emit c m (NotifyDeletedAll (t c) cnt).

(** Len returns number of elements including expired. *)
Definition Len (c : syncMap) : Z :=
  foldl (λ cnt _, cnt + 1) 0 (Range (data c)).

(** [heapInuse] is the figure [runtime.ReadMemStats] reports. *)
Definition heapInUseOverflow (heapInuse : Z) (c : syncMap) : bool :=
  if cache.HeapInUseSoftLimit (Config (t c)) =? 0 then false
  else cache.HeapInUseSoftLimit (Config (t c)) <=? heapInuse.

Definition countOverflow (c : syncMap) : bool :=
  if cache.CountSoftLimit (Config (t c)) =? 0 then false
  else int_of_uint64 (cache.CountSoftLimit (Config (t c))) <=? Len c.

Definition en_less (a b : en) : bool :=
  Time_Before (expireAt a) (expireAt b).

(** The loop [for i := 0; i < evictItems; i++] over [entries[i]], with
    [rest] the entries from index [i] on. *)
Fixpoint evict_loop (i evictItems : Z) (rest : list en)
    (m : gmap string entry) : outcome (gmap string entry) :=
  if i <? evictItems then
    match rest with
    | [] => Panic "index out of range"
    | e :: rest' => evict_loop (i + 1) evictItems rest' (delete (key e) m)
    end
  else Done m.

Definition evictOldest (c : syncMap) : outcome syncMap :=
  let evictFraction :=
    if PrimFloat.eqb (cache.EvictFraction (Config (t c))) 0 then float_0_1
    else cache.EvictFraction (Config (t c)) in
  let entries :=
    foldl (λ entries '(_, i), entries ++ [{| expireAt := E i; key := K i |}])
          [] (Range (data c)) in
  let entries := sort_Slice en_less entries in
  let evictItems :=
    int_of_float64 (float64_of_int (Z.of_nat (length entries))
                    * evictFraction)%float in
  let evs := statAdd (t c) cache.MetricEvict (float64_of_int evictItems) in
  match evict_loop 0 evictItems entries (data c) with
  | Done m => Done (emit c m evs)
  | Panic reason => Panic reason
  end.

Definition deleteExpiredBefore (expirationBoundary : Z) (heapInuse : Z)
    (c : syncMap) : outcome syncMap :=
  let m :=
    foldl (λ m '(k, cacheEntry),
             if Time_Before (E cacheEntry) expirationBoundary
             then delete k m else m)
          (data c) (Range (data c)) in
  let c := emit c m [] in
  if heapInUseOverflow heapInuse c || countOverflow c then evictOldest c
  else Done c.

(** One firing of the janitor's timer. *)
Definition janitor_tick (now : Z) (heapInuse : Z) (c : syncMap)
  : outcome syncMap :=
  let expirationBoundary :=
    Time_Add now (wrap64 (- cache.DeleteExpiredAfter (Config (t c)))) in
  deleteExpiredBefore expirationBoundary heapInuse c.

(** Walk walks cached entries.  The callback owns a state [S] (what its
    closure captures). *)
Fixpoint walk_loop {S : Type}
    (walkFn : S → entry → S * option (cache.error entry))
    (st : S) (n : Z) (visits : list (string * entry))
  : S * (Z * option (cache.error entry)) :=
  match visits with
  | [] => (st, (n, None))
  | (_, value) :: visits' =>
      match walkFn st value with
      | (st', Some err) => (st', (n, Some err))
      | (st', None) => walk_loop walkFn st' (n + 1) visits'
      end
  end.

Definition Walk {S : Type}
    (walkFn : S → entry → S * option (cache.error entry))
    (st : S) (c : syncMap) : S * (Z * option (cache.error entry)) :=
  walk_loop walkFn st 0 (Range (data c)).

(** [gob.Encoder.Encode] on a writer in state [Writer]. *)
Variable Writer : Type.
Variable gob_Encode : Writer → entry → Writer * option (cache.error entry).

(** Dump saves cached entries and returns a number of processed entries. *)
Definition Dump (w : Writer) (c : syncMap)
  : Writer * (Z * option (cache.error entry)) :=
  Walk gob_Encode w c.

(** Restore loads cached entries and returns number of processed entries.
    A reader is the finite sequence of what the successive calls of
    [decoder.Decode(&e)] leave in [e] or return as error; past its end
    [Decode] returns [io.EOF]. *)
Fixpoint restore_loop (r : list (entry + cache.error entry)) (n : Z)
    (m : gmap string entry)
  : (Z * option (cache.error entry)) * gmap string entry :=
  match r with
  | [] => ((n, None), m)
  | inr err :: _ =>
      if cache.Is_EOF err then ((n, None), m) else ((n, Some err), m)
  | inl e :: r' => restore_loop r' (n + 1) (<[K e := e]> m)
  end.

Definition Restore (r : list (entry + cache.error entry)) (c : syncMap)
  : (Z * option (cache.error entry)) * syncMap :=
  let '(res, m) := restore_loop r 0 (data c) in
  (res, emit c m []).

Definition statSet (c : trait) (name : cache.metric) (val : float)
  : list cache.event :=
  if Stat c then [cache.StatSet name val] else [].

(** One firing of the timer of [reportItemsCount], on the backend that
    [newTrait] was given. *)
Definition reportItemsCount_tick (c : syncMap) : syncMap :=
  let count := Len c in
  emit c (data c)
    (logDebug (t c) "cache items count"
     ++ statSet (t c) cache.MetricItems (float64_of_int count)).

(** What [reportItemsCount] and [janitor] do when the cache is closed. *)
Definition reportItemsCount_closed (c : syncMap) : syncMap :=
  emit c (data c)
    (logDebug (t c) "closing cache items counter goroutine"
     ++ statSet (t c) cache.MetricItems (float64_of_int (Len c))).

Definition janitor_closed (c : syncMap) : syncMap :=
  emit c (data c) (logDebug (t c) "closing cache janitor").

(** Whether [newTrait] starts the reporter; it always starts the janitor. *)
Definition reporter_started (config : cache.Config) : bool :=
  cache.Stats config.

End Backend.

Arguments entry Value : clear implicits.
Arguments syncMap Value : clear implicits.

End SyncMap.

(** ** The exported [Trait] of trait.go *)

Module TraitGo.

Section Trait.

(** [B] is the state of the backend the callbacks act on. *)
Context {Value : Type} {B : Type}.

(** TraitEntry is a cache entry; [E] is the expiration timestamp. *)
Record TraitEntry : Type := {
  K : string;
  V : Value;
  E : Z
}.

(** Trait is a shared trait, useful to implement ReadWriter. *)
Record Trait : Type := {
  DeleteExpired : option (Z → B → B);
  Len : option (B → Z);
  EvictOldest : option (float → B → B * Z);
  Config : cache.Config;
  Stat : bool;
  Log : cache.logTrait
}.

(** The calls a janitor tick makes on the backend. *)
Inductive call : Type :=
| CallDeleteExpired (before : Z)
| CallEvictOldest (fraction : float).

Definition logDebug (c : Trait) (msg : string) : list cache.event :=
  if cache.logDebug (Log c) then [cache.LogDebug msg] else [].

Definition logImportant (c : Trait) (msg : string) : list cache.event :=
  if cache.logImportant (Log c) then [cache.LogImportant msg] else [].

Definition statAdd (c : Trait) (name : cache.metric) (val : float)
  : list cache.event :=
  if Stat c then [cache.StatAdd name val] else [].

(** [t.UnixNano()]: instants are counted from the Unix epoch, where the
    result is defined (the years 1678 to 2262). *)
Definition ts (t : Z) : Z := t.

Definition heapInUseOverflow (c : Trait) (heapInuse : Z) : bool :=
  if cache.HeapInUseSoftLimit (Config c) =? 0 then false
  else cache.HeapInUseSoftLimit (Config c) <=? heapInuse.

Definition countOverflow (c : Trait) (b : B) : bool :=
  match Len c with
  | Some len =>
      if cache.CountSoftLimit (Config c) =? 0 then false
      else int_of_uint64 (cache.CountSoftLimit (Config c)) <=? len b
  | None => false
  end.

(** One firing of the janitor's timer: the backend after it, the calls
    made on the backend, and the events emitted. *)
Definition janitor_tick (c : Trait) (now : Z) (heapInuse : Z) (b : B)
  : B * list call * list cache.event :=
  let '(b, calls) :=
    match DeleteExpired c with
    | Some deleteExpired =>
        let expirationBoundary :=
          Time_Add now (wrap64 (- cache.DeleteExpiredAfter (Config c))) in
        (deleteExpired expirationBoundary b,
         [CallDeleteExpired expirationBoundary])
    | None => (b, [])
    end in
  match EvictOldest c with
  | Some evictOldest =>
      if heapInUseOverflow c heapInuse || countOverflow c b then
        let frac :=
          if PrimFloat.eqb (cache.EvictFraction (Config c)) 0 then float_0_1
          else cache.EvictFraction (Config c) in
        let '(b, cnt) := evictOldest frac b in
        (b, calls ++ [CallEvictOldest frac],
         statAdd c cache.MetricEvict (float64_of_int cnt))
      else (b, calls, [])
  | None => (b, calls, [])
  end.

(** NewTrait instantiates new Trait. *)
Definition NewTrait (config : cache.Config) (options : list (Trait → Trait))
  : Trait :=
  let config :=
    {| cache.Name := cache.Name config;
       cache.TimeToLive :=
         if cache.TimeToLive config =? 0 then 5 * Minute
         else cache.TimeToLive config;
       cache.ExpirationJitter :=
         if PrimFloat.eqb (cache.ExpirationJitter config) 0 then float_0_1
         else cache.ExpirationJitter config;
       cache.DeleteExpiredAfter :=
         if cache.DeleteExpiredAfter config =? 0 then 24 * Hour
         else cache.DeleteExpiredAfter config;
       cache.DeleteExpiredJobInterval :=
         if cache.DeleteExpiredJobInterval config =? 0 then Hour
         else cache.DeleteExpiredJobInterval config;
       cache.ItemsCountReportInterval :=
         if cache.ItemsCountReportInterval config =? 0 then Minute
         else cache.ItemsCountReportInterval config;
       cache.HeapInUseSoftLimit := cache.HeapInUseSoftLimit config;
       cache.CountSoftLimit := cache.CountSoftLimit config;
       cache.EvictFraction := cache.EvictFraction config;
       cache.Stats := cache.Stats config;
       cache.Logger := cache.Logger config |} in
  let t :=
    {| DeleteExpired := None; Len := None; EvictOldest := None;
       Config := config;
       Stat := cache.Stats config;
       Log := cache.setup (cache.Logger config) |} in
  foldl (λ t o, o t) t options.

(** Whether [NewTrait] starts the janitor. *)
Definition janitor_started (t : Trait) : bool :=
  bool_decide (is_Some (DeleteExpired t)) || bool_decide (is_Some (EvictOldest t)).

(** PrepareRead handles cached entry; [now] is [ts(time.Now())]. *)
Definition PrepareRead (c : Trait) (now : Z)
    (cacheEntry : option TraitEntry) (found : bool)
  : outcome (option Value * option (cache.error TraitEntry))
    * list cache.event :=
  if negb found then
    (Done (None, Some cache.ErrNotFound),
     logDebug c "cache miss" ++ statAdd c cache.MetricMiss 1)
  else
    match cacheEntry with
    | None => (Panic "nil pointer dereference", [])
    | Some e =>
        if negb (E e =? 0) && (E e <? now) then
          (Done (None, Some (cache.errExpired e)),
           logDebug c "cache key expired" ++ statAdd c cache.MetricExpired 1)
        else
          (Done (Some (V e), None),
           statAdd c cache.MetricHit 1 ++ logDebug c "cache hit")
    end.

(** TTL calculates time to live for a new entry; [r] is the sample
    [rand.Float64()] returns, read only when jitter applies. *)
Definition TTL (c : Trait) (ctx : cache.context) (r : float) : Z :=
  let ttl := cache.TTL ctx in
  if (ttl =? cache.DefaultTTL)
     && (cache.TimeToLive (Config c) =? cache.UnlimitedTTL) then 0
  else
    let ttl := if ttl =? cache.DefaultTTL then cache.TimeToLive (Config c)
               else ttl in
    if PrimFloat.ltb 0 (cache.ExpirationJitter (Config c)) then
      wrap64 (ttl + int_of_float64
                      (float64_of_int ttl * cache.ExpirationJitter (Config c)
                       * (r - float_0_5))%float)
    else ttl.

Definition expireAt (c : Trait) (ctx : cache.context) (now : Z) (r : float)
  : Z * Z :=
  let ttl := TTL c ctx r in
  if negb (ttl =? 0) then (ttl, ts (Time_Add now ttl)) else (0, 0).

Definition tsTime (ns : Z) : Z :=
  Time_Unix (Z.quot ns 1000000000) (Z.rem ns 1000000000).

(** ExpireAt returns entry expiration time. *)
Definition ExpireAt (e : TraitEntry) : Z := tsTime (E e).

(** The methods of the expired error, on the entry it carries. *)
Definition errExpired_Value (entry : TraitEntry) : Value := V entry.

Definition errExpired_ExpiredAt (entry : TraitEntry) : Z := tsTime (E entry).

Definition statSet (c : Trait) (name : cache.metric) (val : float)
  : list cache.event :=
  if Stat c then [cache.StatSet name val] else [].

(** One firing of the timer of [reportItemsCount]; calling a callback that
    is not installed panics. *)
Definition reportItemsCount_tick (c : Trait) (b : B)
  : outcome (list cache.event) :=
  match Len c with
  | Some len =>
      let count := len b in
      Done (logDebug c "cache items count"
            ++ statSet c cache.MetricItems (float64_of_int count))
  | None => Panic "nil pointer dereference"
  end.

(** Whether [NewTrait] starts the reporter, for the configuration it was
    given and the trait its options left. *)
Definition reporter_started (config : cache.Config) (t : Trait) : bool :=
  cache.Stats config && bool_decide (is_Some (Len t)).

(** NotifyWritten, NotifyDeleted, NotifyExpiredAll and NotifyDeletedAll
    collect logs and metrics. *)
Definition NotifyWritten (c : Trait) : list cache.event :=
  logDebug c "wrote to cache" ++ statAdd c cache.MetricWrite 1.

Definition NotifyDeleted (c : Trait) : list cache.event :=
  logDebug c "deleted cache entry" ++ statAdd c cache.MetricDelete 1.

Definition NotifyExpiredAll (c : Trait) (cnt : Z) : list cache.event :=
  logImportant c "expired all entries in cache"
  ++ statAdd c cache.MetricExpired (float64_of_int cnt).

Definition NotifyDeletedAll (c : Trait) (cnt : Z) : list cache.event :=
  logImportant c "deleted all entries in cache"
  ++ statAdd c cache.MetricDelete (float64_of_int cnt).

End Trait.

Arguments TraitEntry Value : clear implicits.
Arguments Trait B : clear implicits.

End TraitGo.

(** ** The library functions, at one choice each

    [sync.Map.Range] in the order in which the finite map lists its
    entries, and [sort.Slice] as an insertion sort; the concrete runs below
    use them. *)

Definition keyOrder {Value : Type} (m : gmap string (SyncMap.entry Value))
  : list (string * SyncMap.entry Value) := map_to_list m.

Fixpoint insertSorted {A : Type} (less : A → A → bool) (x : A) (l : list A)
  : list A :=
  match l with
  | [] => [x]
  | y :: l' => if less y x then y :: insertSorted less x l' else x :: l
  end.

Definition insertionSort {A : Type} (less : A → A → bool) (l : list A)
  : list A :=
  foldr (insertSorted less) [] l.

(** Options, as a caller of [NewSyncMap] writes them. *)
Definition withTimeToLive (ttl : Z) (cfg : cache.Config) : cache.Config :=
  {| cache.Name := cache.Name cfg;
     cache.TimeToLive := ttl;
     cache.ExpirationJitter := cache.ExpirationJitter cfg;
     cache.DeleteExpiredAfter := cache.DeleteExpiredAfter cfg;
     cache.DeleteExpiredJobInterval := cache.DeleteExpiredJobInterval cfg;
     cache.ItemsCountReportInterval := cache.ItemsCountReportInterval cfg;
     cache.HeapInUseSoftLimit := cache.HeapInUseSoftLimit cfg;
     cache.CountSoftLimit := cache.CountSoftLimit cfg;
     cache.EvictFraction := cache.EvictFraction cfg;
     cache.Stats := cache.Stats cfg;
     cache.Logger := cache.Logger cfg |}.

Definition withExpirationJitter (j : float) (cfg : cache.Config)
  : cache.Config :=
  {| cache.Name := cache.Name cfg;
     cache.TimeToLive := cache.TimeToLive cfg;
     cache.ExpirationJitter := j;
     cache.DeleteExpiredAfter := cache.DeleteExpiredAfter cfg;
     cache.DeleteExpiredJobInterval := cache.DeleteExpiredJobInterval cfg;
     cache.ItemsCountReportInterval := cache.ItemsCountReportInterval cfg;
     cache.HeapInUseSoftLimit := cache.HeapInUseSoftLimit cfg;
     cache.CountSoftLimit := cache.CountSoftLimit cfg;
     cache.EvictFraction := cache.EvictFraction cfg;
     cache.Stats := cache.Stats cfg;
     cache.Logger := cache.Logger cfg |}.

Definition withEviction (countSoftLimit : Z) (evictFraction : float)
    (cfg : cache.Config) : cache.Config :=
  {| cache.Name := cache.Name cfg;
     cache.TimeToLive := cache.TimeToLive cfg;
     cache.ExpirationJitter := cache.ExpirationJitter cfg;
     cache.DeleteExpiredAfter := cache.DeleteExpiredAfter cfg;
     cache.DeleteExpiredJobInterval := cache.DeleteExpiredJobInterval cfg;
     cache.ItemsCountReportInterval := cache.ItemsCountReportInterval cfg;
     cache.HeapInUseSoftLimit := cache.HeapInUseSoftLimit cfg;
     cache.CountSoftLimit := countSoftLimit;
     cache.EvictFraction := evictFraction;
     cache.Stats := cache.Stats cfg;
     cache.Logger := cache.Logger cfg |}.

Definition withStats (cfg : cache.Config) : cache.Config :=
  {| cache.Name := cache.Name cfg;
     cache.TimeToLive := cache.TimeToLive cfg;
     cache.ExpirationJitter := cache.ExpirationJitter cfg;
     cache.DeleteExpiredAfter := cache.DeleteExpiredAfter cfg;
     cache.DeleteExpiredJobInterval := cache.DeleteExpiredJobInterval cfg;
     cache.ItemsCountReportInterval := cache.ItemsCountReportInterval cfg;
     cache.HeapInUseSoftLimit := cache.HeapInUseSoftLimit cfg;
     cache.CountSoftLimit := cache.CountSoftLimit cfg;
     cache.EvictFraction := cache.EvictFraction cfg;
     cache.Stats := true;
     cache.Logger := cache.Logger cfg |}.

(** A context carrying the per-call override [UnlimitedTTL]. *)
Definition unlimited : cache.context :=
  cache.WithTTL cache.Background cache.UnlimitedTTL.

(** ** Vocabulary of the statements *)

Section Vocabulary.

Context {Value : Type}.
Implicit Types (m : gmap string (SyncMap.entry Value)).
Implicit Types (records : list (SyncMap.entry Value)).

(** Storing the records one after the other, each under its own key. *)
Definition storeAll records m : gmap string (SyncMap.entry Value) :=
  foldl (λ m e, <[SyncMap.K e := e]> m) m records.

(** The last record of the stream with the key [k], if there is one. *)
Definition lastRecord (k : string) records : option (SyncMap.entry Value) :=
  last (filter (λ e, SyncMap.K e = k) records).

(** The state of a callback after it was called on the entries of [l] in
    turn. *)
Definition feed {S : Type}
    (walkFn : S → SyncMap.entry Value
              → S * option (cache.error (SyncMap.entry Value)))
    (st : S) (l : list (SyncMap.entry Value)) : S :=
  foldl (λ st e, (walkFn st e).1) st l.

(** None of the calls on the entries of [l] in turn returns an error. *)
Fixpoint accepts {S : Type}
    (walkFn : S → SyncMap.entry Value
              → S * option (cache.error (SyncMap.entry Value)))
    (st : S) (l : list (SyncMap.entry Value)) : Prop :=
  match l with
  | [] => True
  | e :: l' => (walkFn st e).2 = None ∧ accepts walkFn (walkFn st e).1 l'
  end.

(** The entry [e] with its expiration moved to [start]. *)
Definition expiredAt (start : Z) (e : SyncMap.entry Value)
  : SyncMap.entry Value :=
  {| SyncMap.K := SyncMap.K e; SyncMap.V := SyncMap.V e;
     SyncMap.E := start |}.

(** Every entry is stored under its own key, as [Write] and [Restore]
    store it. *)
Definition keyed m : Prop := ∀ k e, m !! k = Some e → SyncMap.K e = k.

(** What [evictOldest] collects from the visits of a traversal. *)
Definition snapshot (visits : list (string * SyncMap.entry Value))
  : list SyncMap.en :=
  (λ '(_, i), {| SyncMap.expireAt := SyncMap.E i;
                 SyncMap.key := SyncMap.K i |}) <$> visits.

(** Ascending by expiration. *)
Definition oldestFirst (l : list SyncMap.en) : Prop :=
  StronglySorted (λ a b, SyncMap.expireAt a ≤ SyncMap.expireAt b) l.

(** The fraction [evictOldest] works with and the number of entries it
    sets out to delete among [len] entries. *)
Definition evictFraction (c : SyncMap.syncMap Value) : float :=
  if PrimFloat.eqb (cache.EvictFraction (SyncMap.Config (SyncMap.t c))) 0
  then float_0_1
  else cache.EvictFraction (SyncMap.Config (SyncMap.t c)).

Definition evictItems (c : SyncMap.syncMap Value) (len : nat) : Z :=
  int_of_float64 (float64_of_int (Z.of_nat len) * evictFraction c)%float.

(** Deleting the keys of [l] one after the other. *)
Definition deleteKeys (l : list SyncMap.en) m
  : gmap string (SyncMap.entry Value) :=
  foldl (λ m e, delete (SyncMap.key e) m) m l.

(** The cache after the janitor's deletion with the boundary [cutoff]:
    the entries that expired before it are gone. *)
Definition afterDeleteExpired (cutoff : Z) (c : SyncMap.syncMap Value)
  : SyncMap.syncMap Value :=
  {| SyncMap.data := filter (λ kv, cutoff ≤ SyncMap.E kv.2) (SyncMap.data c);
     SyncMap.t := SyncMap.t c;
     SyncMap.emitted := SyncMap.emitted c |}.

End Vocabulary.

(** Pressure: a soft limit that is set and reached. *)
Definition underPressure (config : cache.Config) (heapInuse len : Z) : Prop :=
  (0 < cache.HeapInUseSoftLimit config
   ∧ cache.HeapInUseSoftLimit config ≤ heapInuse)
  ∨ (0 < cache.CountSoftLimit config ∧ cache.CountSoftLimit config ≤ len).

(** The limits are unsigned, the count limit fits an [int], and the grace
    period can be negated. *)
Definition limitsInRange (config : cache.Config) : Prop :=
  0 ≤ cache.HeapInUseSoftLimit config
  ∧ 0 ≤ cache.CountSoftLimit config ≤ max_int64
  ∧ min_int64 < cache.DeleteExpiredAfter config ≤ max_int64.

(** A cache with three entries, built under the given options. *)
Definition abcWith (options : list (cache.Config → cache.Config))
  : SyncMap.syncMap string :=
  let c := SyncMap.NewSyncMap options in
  let c := (SyncMap.Write cache.Background "a" "1"%string 1000 float_0_5 c).2 in
  let c := (SyncMap.Write cache.Background "b" "2"%string 2000 float_0_5 c).2 in
  (SyncMap.Write cache.Background "c" "3"%string 3000 float_0_5 c).2.

Definition abc : SyncMap.syncMap string := abcWith [].

(** The same entries in a cache that evicts half of them and has a metrics
    sink. *)
Definition abcHalf : SyncMap.syncMap string :=
  abcWith [withEviction 2 0x1p-1; withStats].


(** Two callbacks that keep the keys they have seen; the first fails on
    the key "b". *)
Definition failOnB (seen : list string) (e : SyncMap.entry string)
  : list string * option (cache.error (SyncMap.entry string)) :=
  (seen ++ [SyncMap.K e],
   if String.eqb (SyncMap.K e) "b" then Some (cache.errorString "sink closed")
   else None).

Definition keepAll (seen : list string) (e : SyncMap.entry string)
  : list string * option (cache.error (SyncMap.entry string)) :=
  (seen ++ [SyncMap.K e], None).

(** The three entries of [abc]. *)
Definition entry_a : SyncMap.entry string :=
  {| SyncMap.K := "a"; SyncMap.V := "1"%string; SyncMap.E := 300000001000 |}.
Definition entry_b : SyncMap.entry string :=
  {| SyncMap.K := "b"; SyncMap.V := "2"%string; SyncMap.E := 300000002000 |}.
Definition entry_c : SyncMap.entry string :=
  {| SyncMap.K := "c"; SyncMap.V := "3"%string; SyncMap.E := 300000003000 |}.

(** An option of [NewTrait], as a backend writes it: it installs the three
    callbacks. *)
Definition withCallbacks {B : Type} (deleteExpired : Z → B → B)
    (len : B → Z) (evictOldest : float → B → B * Z)
    (t : TraitGo.Trait B) : TraitGo.Trait B :=
  {| TraitGo.DeleteExpired := Some deleteExpired;
     TraitGo.Len := Some len;
     TraitGo.EvictOldest := Some evictOldest;
     TraitGo.Config := TraitGo.Config t;
     TraitGo.Stat := TraitGo.Stat t;
     TraitGo.Log := TraitGo.Log t |}.

(** A backend that only counts its entries: deleting the expired ones
    removes none, evicting removes [int(float64(len) * fraction)]. *)
Definition counterOptions : list (TraitGo.Trait Z → TraitGo.Trait Z) :=
  [withCallbacks (λ _ b, b) (λ b, b)
     (λ fraction b,
        let cnt := int_of_float64 (float64_of_int b * fraction)%float in
        (b - cnt, cnt))].

(** The metric updates among the events, in order. *)
Definition added (evs : list cache.event) : list (cache.metric * float) :=
  omap (λ ev, match ev with
              | cache.StatAdd name val => Some (name, val)
              | _ => None
              end) evs.



(** Options of [NewTrait] that install one callback each. *)
Definition withDeleteExpired {B : Type} (deleteExpired : Z → B → B)
    (t : TraitGo.Trait B) : TraitGo.Trait B :=
  {| TraitGo.DeleteExpired := Some deleteExpired;
     TraitGo.Len := TraitGo.Len t;
     TraitGo.EvictOldest := TraitGo.EvictOldest t;
     TraitGo.Config := TraitGo.Config t;
     TraitGo.Stat := TraitGo.Stat t;
     TraitGo.Log := TraitGo.Log t |}.

Definition withEvictOldest {B : Type} (evictOldest : float → B → B * Z)
    (t : TraitGo.Trait B) : TraitGo.Trait B :=
  {| TraitGo.DeleteExpired := TraitGo.DeleteExpired t;
     TraitGo.Len := TraitGo.Len t;
     TraitGo.EvictOldest := Some evictOldest;
     TraitGo.Config := TraitGo.Config t;
     TraitGo.Stat := TraitGo.Stat t;
     TraitGo.Log := TraitGo.Log t |}.

(** The eviction of the counting backend. *)
Definition counterEvict (fraction : float) (b : Z) : Z * Z :=
  let cnt := int_of_float64 (float64_of_int b * fraction)%float in
  (b - cnt, cnt).

(** * Properties *)

(** ** Reads and writes of the [syncMap] backend *)

Section SyncMapPointOps.

Context {Value : Type}.
Implicit Types (c : SyncMap.syncMap Value) (k : string) (v : Value).
Implicit Types (ctx : cache.context).

Lemma Write_data ctx k v now r c :
  SyncMap.data (SyncMap.Write ctx k v now r c).2
  = <[k := {| SyncMap.K := k; SyncMap.V := v;
              SyncMap.E := now + SyncMap.TTL (SyncMap.t c) ctx r |}]>
      (SyncMap.data c).
Proof. reflexivity. Qed.

Lemma Write_trait ctx k v now r c :
  SyncMap.t (SyncMap.Write ctx k v now r c).2 = SyncMap.t c.
Proof. reflexivity. Qed.

Lemma Read_found ctx k now c e :
  cache.SkipRead ctx = false →
  SyncMap.data c !! k = Some e →
  (SyncMap.Read ctx k now c).1
  = (SyncMap.prepareRead (SyncMap.t c) now (Some e) true).1.
Proof.
  intros Hskip Hk. unfold SyncMap.Read. rewrite Hskip, Hk.
  by destruct (SyncMap.prepareRead _ _ _ _).
Qed.

Lemma prepareRead_expired (tr : @SyncMap.trait) now (e : SyncMap.entry Value) :
  SyncMap.E e < now →
  (SyncMap.prepareRead tr now (Some e) true).1
  = Done (None, Some (cache.errExpired e)).
Proof.
  intros Hlt. unfold SyncMap.prepareRead, Time_Before. simpl.
  destruct (Z.ltb_spec (SyncMap.E e) now); [done | lia].
Qed.

Lemma prepareRead_live (tr : @SyncMap.trait) now (e : SyncMap.entry Value) :
  now ≤ SyncMap.E e →
  (SyncMap.prepareRead tr now (Some e) true).1 = Done (Some (SyncMap.V e), None).
Proof.
  intros Hle. unfold SyncMap.prepareRead, Time_Before. simpl.
  destruct (Z.ltb_spec (SyncMap.E e) now); [lia | done].
Qed.

(** Write, then read: the value until the clock passes the instant of the
    write plus the TTL, the expired error carrying the entry from then
    on. *)
Lemma Write_then_Read ctx ctx' k v now now' r c :
  cache.SkipRead ctx' = false →
  let e := {| SyncMap.K := k; SyncMap.V := v;
              SyncMap.E := now + SyncMap.TTL (SyncMap.t c) ctx r |} in
  (SyncMap.Read ctx' k now' (SyncMap.Write ctx k v now r c).2).1
  = if now + SyncMap.TTL (SyncMap.t c) ctx r <? now'
    then Done (None, Some (cache.errExpired e))
    else Done (Some v, None).
Proof.
  intros Hskip e.
  rewrite (Read_found _ _ _ _ e Hskip)
    by (rewrite Write_data; apply lookup_insert_eq).
  rewrite Write_trait.
  destruct (Z.ltb_spec (now + SyncMap.TTL (SyncMap.t c) ctx r) now').
  - by apply prepareRead_expired.
  - by rewrite prepareRead_live.
Qed.

(** A write whose TTL comes out negative is stale at once: every read at
    or after the instant of the write finds it expired. *)
Lemma Write_negative_ttl_Read_expired ctx ctx' k v now now' r c :
  cache.SkipRead ctx' = false →
  SyncMap.TTL (SyncMap.t c) ctx r < 0 →
  now ≤ now' →
  (SyncMap.Read ctx' k now' (SyncMap.Write ctx k v now r c).2).1
  = Done (None, Some (cache.errExpired
            {| SyncMap.K := k; SyncMap.V := v;
               SyncMap.E := now + SyncMap.TTL (SyncMap.t c) ctx r |})).
Proof.
  intros Hskip Hneg Hle. rewrite Write_then_Read by done.
  destruct (Z.ltb_spec (now + SyncMap.TTL (SyncMap.t c) ctx r) now');
    [done | lia].
Qed.

(** With the skip-read flag the store is not consulted. *)
Lemma Read_skip ctx k now c :
  cache.SkipRead ctx = true →
  SyncMap.Read ctx k now c = (Done (None, Some cache.ErrNotFound), c).
Proof. intros Hskip. unfold SyncMap.Read. by rewrite Hskip. Qed.

(** After a delete the key is not found. *)
Lemma Delete_then_Read ctx ctx' k now c :
  cache.SkipRead ctx' = false →
  (SyncMap.Read ctx' k now (SyncMap.Delete ctx k c).2).1
  = Done (None, Some cache.ErrNotFound).
Proof.
  intros Hskip. unfold SyncMap.Read. rewrite Hskip. simpl.
  by rewrite lookup_delete_eq.
Qed.

End SyncMapPointOps.

(** C1.  A write with an unlimited TTL is meant to produce an entry that no
    later read classifies as expired.  On the [syncMap] backend it does not:
    with the per-call override [UnlimitedTTL], and likewise with
    [TimeToLive = UnlimitedTTL] in the configuration and no override,
    [trait.TTL] returns -1, [Write] stores the instant one nanosecond
    before the write, and a read at the very instant of the write (or any
    later one) returns the expired error instead of the value. *)
Theorem unlimited_ttl_write_is_read_as_expired :
  let stale := {| SyncMap.K := "k"; SyncMap.V := "v"%string;
                  SyncMap.E := 999 |} in
  let c := SyncMap.NewSyncMap [] in
  let c' := SyncMap.NewSyncMap [withTimeToLive cache.UnlimitedTTL] in
  SyncMap.TTL (SyncMap.t c) unlimited float_0_5 = -1
  ∧ SyncMap.TTL (SyncMap.t c) unlimited 0 = -1
  ∧ SyncMap.TTL (SyncMap.t c) unlimited 0x1.fffffffffffffp-1 = -1
  ∧ SyncMap.data (SyncMap.Write unlimited "k" "v"%string 1000 float_0_5 c).2
      !! "k" = Some stale
  ∧ (SyncMap.Read cache.Background "k" 1000
       (SyncMap.Write unlimited "k" "v"%string 1000 float_0_5 c).2).1
    = Done (None, Some (cache.errExpired stale))
  ∧ (SyncMap.Read cache.Background "k" (1000 + Hour)
       (SyncMap.Write unlimited "k" "v"%string 1000 float_0_5 c).2).1
    = Done (None, Some (cache.errExpired stale))
  ∧ SyncMap.TTL (SyncMap.t c') cache.Background float_0_5 = -1
  ∧ (SyncMap.Read cache.Background "k" 1000
       (SyncMap.Write cache.Background "k" "v"%string 1000 float_0_5 c').2).1
    = Done (None, Some (cache.errExpired stale)).
Proof. vm_compute. repeat split; reflexivity. Qed.

(** C3.  [Delete] of the [syncMap] backend returns no error whatever the
    key: for a key with no entry, as every key of a new cache is, it
    returns nil and not [ErrNotFound]. *)
Theorem Delete_returns_nil_for_every_key :
  ∀ (Value : Type) (c : SyncMap.syncMap Value) (ctx : cache.context)
    (k : string),
    (SyncMap.Delete ctx k c).1 = None
    ∧ SyncMap.data (SyncMap.Delete ctx k c).2 = delete k (SyncMap.data c)
    ∧ SyncMap.data (SyncMap.NewSyncMap (Value := Value) []) !! k = None
    ∧ (SyncMap.Delete ctx k (SyncMap.NewSyncMap (Value := Value) [])).1 = None.
Proof.
  intros Value c ctx k. repeat split.
Qed.

(** ** Read preparation *)

Section ReadPreparation.

Context {Value : Type} {B : Type}.

Lemma PrepareRead_sentinel (C : TraitGo.Trait B) now
    (e : TraitGo.TraitEntry Value) :
  TraitGo.E e = 0 →
  (TraitGo.PrepareRead C now (Some e) true).1
  = Done (Some (TraitGo.V e), None).
Proof. intros He. unfold TraitGo.PrepareRead. by rewrite He. Qed.

Lemma PrepareRead_expired (C : TraitGo.Trait B) now
    (e : TraitGo.TraitEntry Value) :
  TraitGo.E e ≠ 0 → TraitGo.E e < now →
  (TraitGo.PrepareRead C now (Some e) true).1
  = Done (None, Some (cache.errExpired e)).
Proof.
  intros Hne Hlt. unfold TraitGo.PrepareRead. simpl.
  destruct (Z.eqb_spec (TraitGo.E e) 0); [done |].
  destruct (Z.ltb_spec (TraitGo.E e) now); [done | lia].
Qed.

Lemma PrepareRead_live (C : TraitGo.Trait B) now
    (e : TraitGo.TraitEntry Value) :
  now ≤ TraitGo.E e →
  (TraitGo.PrepareRead C now (Some e) true).1
  = Done (Some (TraitGo.V e), None).
Proof.
  intros Hle. unfold TraitGo.PrepareRead. simpl.
  destruct (Z.ltb_spec (TraitGo.E e) now); [lia |].
  by rewrite andb_false_r.
Qed.

(** A zero TTL makes [expireAt] return the sentinel, and an entry that
    carries it is returned by [PrepareRead] at every instant. *)
Lemma expireAt_zero_ttl_never_expires
    (C : TraitGo.Trait B) ctx now r (k : string) (v : Value) now' :
  TraitGo.TTL C ctx r = 0 →
  TraitGo.expireAt C ctx now r = (0, 0)
  ∧ (TraitGo.PrepareRead C now'
       (Some {| TraitGo.K := k; TraitGo.V := v;
                TraitGo.E := (TraitGo.expireAt C ctx now r).2 |}) true).1
    = Done (Some v, None).
Proof.
  intros Httl. unfold TraitGo.expireAt. rewrite Httl. by simpl.
Qed.

(** With [TimeToLive = UnlimitedTTL] and no override [Trait.TTL] is 0. *)
Lemma Trait_TTL_unlimited_config (C : TraitGo.Trait B) r :
  cache.TimeToLive (TraitGo.Config C) = cache.UnlimitedTTL →
  TraitGo.TTL C cache.Background r = 0.
Proof. intros Hcfg. unfold TraitGo.TTL. by rewrite Hcfg. Qed.

End ReadPreparation.

(** The per-call override [UnlimitedTTL] is no such case: [Trait.TTL] lets
    it through as -1, and the entry is expired from the start. *)
Lemma Trait_override_unlimited_expires :
  let C := TraitGo.NewTrait cache.zeroConfig counterOptions in
  let e := {| TraitGo.K := "k"; TraitGo.V := "v"%string;
              TraitGo.E := 999 |} in
  TraitGo.TTL C unlimited float_0_5 = -1
  ∧ TraitGo.expireAt C unlimited 1000 float_0_5 = (-1, 999)
  ∧ (TraitGo.PrepareRead C 1000 (Some e) true).1
    = Done (None, Some (cache.errExpired e)).
Proof. vm_compute. repeat split; reflexivity. Qed.

(** C2.  Read preparation has three outcomes, one for each kind of lookup
    result.  A lookup that found nothing gives [ErrNotFound]; an entry whose
    expiration instant is strictly before now gives the expired error
    carrying that entry; an entry that is live gives its value and no
    error.  For [trait.prepareRead] the expiration instant is [E]; for
    [Trait.PrepareRead] it is [E] unless [E] is 0, the "never" value, which
    is no instant and makes the entry live. *)
Theorem prepareRead_three_outcomes :
  ∀ (Value B : Type) (c : SyncMap.trait) (C : TraitGo.Trait B) (now : Z)
    (found : option (SyncMap.entry Value))
    (Found : option (TraitGo.TraitEntry Value)),
    let res := (SyncMap.prepareRead c now found
                  (bool_decide (is_Some found))).1 in
    let Res := (TraitGo.PrepareRead C now Found
                  (bool_decide (is_Some Found))).1 in
    ((found = None ∧ res = Done (None, Some cache.ErrNotFound))
     ∨ (∃ e, found = Some e ∧ SyncMap.E e < now
             ∧ res = Done (None, Some (cache.errExpired e)))
     ∨ (∃ e, found = Some e ∧ now ≤ SyncMap.E e
             ∧ res = Done (Some (SyncMap.V e), None)))
    ∧
    ((Found = None ∧ Res = Done (None, Some cache.ErrNotFound))
     ∨ (∃ e, Found = Some e ∧ TraitGo.E e ≠ 0 ∧ TraitGo.E e < now
             ∧ Res = Done (None, Some (cache.errExpired e)))
     ∨ (∃ e, Found = Some e ∧ (TraitGo.E e = 0 ∨ now ≤ TraitGo.E e)
             ∧ Res = Done (Some (TraitGo.V e), None))).
Proof.
  intros Value B c C now found Found res Res. split.
  - subst res. destruct found as [e |]; [| by left].
    replace (bool_decide (is_Some (Some e))) with true by done.
    right. destruct (Z.lt_ge_cases (SyncMap.E e) now) as [Hlt | Hge].
    + left. exists e. by rewrite (prepareRead_expired c now e Hlt).
    + right. exists e. by rewrite (prepareRead_live c now e Hge).
  - subst Res. destruct Found as [e |]; [| by left].
    replace (bool_decide (is_Some (Some e))) with true by done.
    right. destruct (Z.eq_dec (TraitGo.E e) 0) as [Hz | Hnz].
    { right. exists e. rewrite (PrepareRead_sentinel C now e Hz). auto. }
    destruct (Z.lt_ge_cases (TraitGo.E e) now) as [Hlt | Hge].
    + left. exists e. by rewrite (PrepareRead_expired C now e Hnz Hlt).
    + right. exists e. rewrite (PrepareRead_live C now e Hge). auto.
Qed.

(** C4.  A write with an effective TTL of 0 is meant to store the "never"
    value, which reads take as not expiring.  [Trait.expireAt] and
    [Trait.PrepareRead] do so, [syncMap.Write] does not: when [trait.TTL]
    comes out as 0 it stores the instant of the write itself, and a read
    one nanosecond later returns the expired error; and a configured
    [TimeToLive = UnlimitedTTL] reaches [Write] as the TTL -1, not 0. *)
Theorem syncMap_write_stores_no_never_value :
  let c := SyncMap.NewSyncMap [withExpirationJitter 2] in
  let ctx := cache.WithTTL cache.Background 10 in
  let stored := {| SyncMap.K := "k"; SyncMap.V := "v"%string;
                   SyncMap.E := 1000 |} in
  SyncMap.TTL (SyncMap.t c) ctx 0 = 0
  ∧ SyncMap.data (SyncMap.Write ctx "k" "v"%string 1000 0 c).2 !! "k"
    = Some stored
  ∧ (SyncMap.Read cache.Background "k" 1001
       (SyncMap.Write ctx "k" "v"%string 1000 0 c).2).1
    = Done (None, Some (cache.errExpired stored))
  ∧ SyncMap.TTL
      (SyncMap.t (SyncMap.NewSyncMap (Value := string)
                    [withTimeToLive cache.UnlimitedTTL]))
      cache.Background 0 = -1.
Proof. vm_compute. repeat split; reflexivity. Qed.

(** ** Restore *)

Section RestoreFacts.

Context {Value : Type}.
Implicit Types (m : gmap string (SyncMap.entry Value)).
Implicit Types (records : list (SyncMap.entry Value)).

Lemma restore_loop_records records tail n m :
  SyncMap.restore_loop ((inl <$> records) ++ tail) n m
  = SyncMap.restore_loop tail (n + Z.of_nat (length records))
      (storeAll records m).
Proof.
  revert n m. induction records as [| e records IH]; intros n m; simpl.
  - f_equal. lia.
  - rewrite IH. f_equal. lia.
Qed.

Lemma storeAll_lookup records m k :
  storeAll records m !! k
  = match lastRecord k records with Some e => Some e | None => m !! k end.
Proof.
  revert m. unfold lastRecord.
  induction records as [| e records IH]; intros m; simpl; [done |].
  unfold storeAll in *. rewrite IH. clear IH.
  destruct (decide (SyncMap.K e = k)) as [Heq | Hne].
  - rewrite filter_cons_True by done. rewrite last_cons.
    destruct (last _); [done |]. rewrite Heq. apply lookup_insert_eq.
  - rewrite filter_cons_False by done.
    destruct (last _); [done |]. by apply lookup_insert_ne.
Qed.

End RestoreFacts.


(** ** Traversals of the store *)

Section Traversal.

Context {Value : Type}.
Variable Range : gmap string (SyncMap.entry Value)
                 → list (string * SyncMap.entry Value).
Hypothesis Range_perm : ∀ m, Range m ≡ₚ map_to_list m.

Implicit Types (m : gmap string (SyncMap.entry Value)).
Implicit Types (c : SyncMap.syncMap Value).

Lemma Range_length m : length (Range m) = size m.
Proof. by rewrite Range_perm, length_map_to_list. Qed.

Lemma Range_NoDup_keys m : NoDup (Range m).*1.
Proof. rewrite Range_perm. apply NoDup_fst_map_to_list. Qed.

Lemma Range_to_map m : list_to_map (Range m) = m.
Proof.
  rewrite <- (list_to_map_to_list m) at 2.
  apply list_to_map_proper; [apply Range_NoDup_keys | apply Range_perm].
Qed.

Lemma foldl_count {A : Type} (l : list A) (n : Z) :
  foldl (λ cnt _, cnt + 1) n l = n + Z.of_nat (length l).
Proof.
  revert n. induction l as [| x l IH]; intros n; simpl; [lia |].
  rewrite IH. lia.
Qed.

Lemma Len_size c : SyncMap.Len Range c = Z.of_nat (size (SyncMap.data c)).
Proof. unfold SyncMap.Len. by rewrite foldl_count, Range_length. Qed.

(** Rewriting every visited entry in place. *)
Lemma foldl_rewrite_entries (f : SyncMap.entry Value → SyncMap.entry Value)
    (l : list (string * SyncMap.entry Value)) m (n : Z) :
  NoDup l.*1 →
  ∃ m', foldl (λ '(m, cnt) '(k, e), (<[k := f e]> m, cnt + 1)) (m, n) l
        = (m', n + Z.of_nat (length l))
        ∧ ∀ k, m' !! k = match (list_to_map l : gmap _ _) !! k with
                         | Some e => Some (f e)
                         | None => m !! k
                         end.
Proof.
  revert m n. induction l as [| [k0 e0] l IH]; intros m n Hnd.
  - exists m. split; [simpl; f_equal; lia | done].
  - apply NoDup_cons in Hnd as [Hk0 Hnd].
    destruct (IH (<[k0 := f e0]> m) (n + 1) Hnd) as (m' & Hfold & Hlook).
    exists m'. split.
    + simpl. rewrite Hfold. f_equal. simpl. lia.
    + intros k. rewrite Hlook. simpl.
      destruct (decide (k = k0)) as [-> | Hne].
      * rewrite lookup_insert_eq.
        rewrite (not_elem_of_list_to_map_1 l k0 Hk0).
        by rewrite lookup_insert_eq.
      * by rewrite !lookup_insert_ne.
Qed.

Lemma ExpireAll_lookup ctx start c k :
  SyncMap.data (SyncMap.ExpireAll Range ctx start c) !! k
  = expiredAt start <$> SyncMap.data c !! k.
Proof.
  unfold SyncMap.ExpireAll.
  destruct (foldl_rewrite_entries (expiredAt start) (Range (SyncMap.data c))
              (SyncMap.data c) 0 (Range_NoDup_keys _)) as (m' & Hfold & Hlook).
  unfold expiredAt in Hfold. rewrite Hfold. simpl.
  rewrite Hlook, Range_to_map. by destruct (SyncMap.data c !! k).
Qed.

Lemma ExpireAll_data ctx start c :
  SyncMap.data (SyncMap.ExpireAll Range ctx start c)
  = expiredAt start <$> SyncMap.data c.
Proof. apply map_eq. intros k. by rewrite ExpireAll_lookup, lookup_fmap. Qed.

Lemma ExpireAll_trait ctx start c :
  SyncMap.t (SyncMap.ExpireAll Range ctx start c) = SyncMap.t c.
Proof.
  unfold SyncMap.ExpireAll. by destruct (foldl _ _ _).
Qed.

(** [DeleteAll] leaves no entry and counts those it found. *)
Lemma foldl_delete_all (l : list (string * SyncMap.entry Value)) m (n : Z) :
  ∃ m', foldl (λ '(m, cnt) '(k, _), (delete k m, cnt + 1)) (m, n) l
        = (m', n + Z.of_nat (length l))
        ∧ ∀ k, m' !! k = if decide (k ∈ l.*1) then None else m !! k.
Proof.
  revert m n. induction l as [| [k0 e0] l IH]; intros m n.
  - exists m. split; [simpl; f_equal; lia | done].
  - destruct (IH (delete k0 m) (n + 1)) as (m' & Hfold & Hlook).
    exists m'. split; [simpl; rewrite Hfold; f_equal; simpl; lia |].
    intros k. rewrite Hlook. rewrite fmap_cons. simpl.
    destruct (decide (k = k0)) as [-> | Hne].
    + rewrite lookup_delete_eq.
      rewrite (decide_True (P := _ ∈ _ :: _)) by apply list_elem_of_here.
      by destruct (decide _).
    + rewrite lookup_delete_ne by done.
      destruct (decide (k ∈ l.*1)) as [Hin | Hout].
      * by rewrite decide_True by (by apply list_elem_of_further).
      * rewrite decide_False; [done |].
        rewrite elem_of_cons. by intros [? | ?].
Qed.

Lemma DeleteAll_data ctx c :
  SyncMap.data (SyncMap.DeleteAll Range ctx c) = ∅.
Proof.
  unfold SyncMap.DeleteAll.
  destruct (foldl_delete_all (Range (SyncMap.data c)) (SyncMap.data c) 0)
    as (m' & Hfold & Hlook).
  rewrite Hfold. simpl. apply map_eq. intros k.
  rewrite Hlook, lookup_empty.
  destruct (decide _) as [| Hout]; [done |].
  destruct (SyncMap.data c !! k) as [e |] eqn:Hk; [| done].
  destruct Hout. apply list_elem_of_fmap. exists (k, e). split; [done |].
  rewrite Range_perm. by apply elem_of_map_to_list.
Qed.

(** The loop of [Walk] over entries the callback accepts. *)
Lemma walk_loop_accepts {S : Type}
    (walkFn : S → SyncMap.entry Value
              → S * option (cache.error (SyncMap.entry Value)))
    (pre tail : list (string * SyncMap.entry Value)) st n :
  accepts walkFn st pre.*2 →
  SyncMap.walk_loop walkFn st n (pre ++ tail)
  = SyncMap.walk_loop walkFn (feed walkFn st pre.*2)
      (n + Z.of_nat (length pre)) tail.
Proof.
  revert st n. induction pre as [| [k e] pre IH]; intros st n Hacc; simpl.
  - f_equal. lia.
  - destruct Hacc as [Hok Hacc]. unfold feed. simpl in *.
    destruct (walkFn st e) as [st' [err |]] eqn:Hcall; simpl in *; [done |].
    rewrite (IH st' (n + 1) Hacc). unfold feed. f_equal. lia.
Qed.

Lemma Walk_all_accepted {S : Type}
    (walkFn : S → SyncMap.entry Value
              → S * option (cache.error (SyncMap.entry Value))) st c :
  accepts walkFn st (Range (SyncMap.data c)).*2 →
  SyncMap.Walk Range walkFn st c
  = (feed walkFn st (Range (SyncMap.data c)).*2,
     (Z.of_nat (size (SyncMap.data c)), None)).
Proof.
  intros Hacc. unfold SyncMap.Walk.
  rewrite <- (app_nil_r (Range (SyncMap.data c))) at 1.
  rewrite (walk_loop_accepts walkFn _ [] st 0 Hacc). simpl.
  by rewrite Range_length.
Qed.

Lemma Walk_first_error {S : Type}
    (walkFn : S → SyncMap.entry Value
              → S * option (cache.error (SyncMap.entry Value)))
    st c pre e post err :
  (Range (SyncMap.data c)).*2 = pre ++ e :: post →
  accepts walkFn st pre →
  (walkFn (feed walkFn st pre) e).2 = Some err →
  SyncMap.Walk Range walkFn st c
  = ((walkFn (feed walkFn st pre) e).1, (Z.of_nat (length pre), Some err)).
Proof.
  intros Hsplit Hacc Herr. unfold SyncMap.Walk.
  apply fmap_app_inv in Hsplit as (pre' & tail' & -> & Htail & ->).
  symmetry in Htail.
  apply fmap_cons_inv in Htail as ([k e'] & post' & Hhd & Htl & ->).
  simpl in Hhd. subst e.
  rewrite (walk_loop_accepts walkFn pre' _ st 0 Hacc). simpl.
  destruct (walkFn _ e') as [st' [err' |]]; simpl in *; [| done].
  rewrite length_fmap. by simplify_eq.
Qed.

End Traversal.

(** C7.  [Walk] calls the callback on the entries in the order of the
    traversal, which visits every entry of the store once.  When no call
    fails it returns the number of entries and no error.  When a call
    fails, that is the last call made: [Walk] returns its error and the
    number of entries visited before the failing one.  [Dump] is [Walk]
    with the encoder as callback, so it stops at the first entry the
    encoder fails on and returns the number of entries encoded before. *)
Theorem Walk_stops_at_first_error :
  ∀ (Value S Writer : Type)
    (Range : gmap string (SyncMap.entry Value)
             → list (string * SyncMap.entry Value))
    (walkFn : S → SyncMap.entry Value
              → S * option (cache.error (SyncMap.entry Value)))
    (gob_Encode : Writer → SyncMap.entry Value
                  → Writer * option (cache.error (SyncMap.entry Value)))
    (st : S) (w : Writer) (c : SyncMap.syncMap Value),
    (∀ m, Range m ≡ₚ map_to_list m) →
    let visits := (Range (SyncMap.data c)).*2 in
    visits ≡ₚ (map_to_list (SyncMap.data c)).*2
    ∧ (accepts walkFn st visits →
       SyncMap.Walk Range walkFn st c
       = (feed walkFn st visits,
          (Z.of_nat (size (SyncMap.data c)), None)))
    ∧ (∀ pre e post err,
         visits = pre ++ e :: post →
         accepts walkFn st pre →
         (walkFn (feed walkFn st pre) e).2 = Some err →
         SyncMap.Walk Range walkFn st c
         = ((walkFn (feed walkFn st pre) e).1,
            (Z.of_nat (length pre), Some err)))
    ∧ (accepts gob_Encode w visits →
       SyncMap.Dump Range Writer gob_Encode w c
       = (feed gob_Encode w visits,
          (Z.of_nat (size (SyncMap.data c)), None)))
    ∧ (∀ pre e post err,
         visits = pre ++ e :: post →
         accepts gob_Encode w pre →
         (gob_Encode (feed gob_Encode w pre) e).2 = Some err →
         SyncMap.Dump Range Writer gob_Encode w c
         = ((gob_Encode (feed gob_Encode w pre) e).1,
            (Z.of_nat (length pre), Some err))).
Proof.
  intros Value S Writer Range walkFn gob_Encode st w c HRange visits.
  split; [subst visits; by rewrite HRange |].
  split; [intros; by apply Walk_all_accepted |].
  split; [intros; by eapply Walk_first_error |].
  unfold SyncMap.Dump.
  split; [intros; by apply Walk_all_accepted |].
  intros; by eapply Walk_first_error.
Qed.

Lemma Walk_stops_at_first_error_witness :
  SyncMap.Walk keyOrder failOnB [] abc
  = (["c"; "a"; "b"], (2, Some (cache.errorString "sink closed")))
  ∧ SyncMap.Dump keyOrder (list string) failOnB [] abc
    = (["c"; "a"; "b"], (2, Some (cache.errorString "sink closed")))
  ∧ SyncMap.Walk keyOrder keepAll [] abc = (["c"; "a"; "b"], (3, None))
  ∧ SyncMap.Dump keyOrder (list string) keepAll [] abc
    = (["c"; "a"; "b"], (3, None)).
Proof.
  destruct (Walk_stops_at_first_error string (list string) (list string)
              keyOrder failOnB failOnB [] [] abc
              ltac:(intros; reflexivity))
    as (_ & _ & Hwalk & _ & Hdump).
  destruct (Walk_stops_at_first_error string (list string) (list string)
              keyOrder keepAll keepAll [] [] abc
              ltac:(intros; reflexivity))
    as (_ & Hwalk' & _ & Hdump' & _).
  split; [| split; [| split]].
  - apply (Hwalk [entry_c; entry_a] entry_b []
             (cache.errorString "sink closed"));
      vm_compute; repeat split; reflexivity.
  - apply (Hdump [entry_c; entry_a] entry_b []
             (cache.errorString "sink closed"));
      vm_compute; repeat split; reflexivity.
  - apply Hwalk'. vm_compute. repeat split; reflexivity.
  - apply Hdump'. vm_compute. repeat split; reflexivity.
Defined.

(** C8.  [ExpireAll] removes nothing and rewrites the expiration of every
    entry to the instant [start] it read from the clock: the number of
    entries is the same, every key holds the entry it held, with the same
    key and value, and a read whose clock reading is strictly later than
    [start] returns the expired error carrying that entry.  A read whose
    clock reading is not later than [start] still returns the value. *)
Theorem ExpireAll_keeps_entries_and_expires_them :
  ∀ (Value : Type)
    (Range : gmap string (SyncMap.entry Value)
             → list (string * SyncMap.entry Value))
    (ctx : cache.context) (start : Z) (c : SyncMap.syncMap Value),
    (∀ m, Range m ≡ₚ map_to_list m) →
    let c' := SyncMap.ExpireAll Range ctx start c in
    SyncMap.Len Range c' = SyncMap.Len Range c
    ∧ (∀ k, SyncMap.data c' !! k = expiredAt start <$> SyncMap.data c !! k)
    ∧ (∀ ctx' k e now,
         cache.SkipRead ctx' = false →
         SyncMap.data c !! k = Some e →
         start < now →
         (SyncMap.Read ctx' k now c').1
         = Done (None, Some (cache.errExpired (expiredAt start e))))
    ∧ (∀ ctx' k e now,
         cache.SkipRead ctx' = false →
         SyncMap.data c !! k = Some e →
         now ≤ start →
         (SyncMap.Read ctx' k now c').1 = Done (Some (SyncMap.V e), None)).
Proof.
  intros Value Range ctx start c HRange c'. subst c'.
  split.
  { rewrite !Len_size by done. rewrite ExpireAll_data by done.
    by rewrite map_size_fmap. }
  split; [intros k; by apply ExpireAll_lookup |].
  split; intros ctx' k e now Hskip Hk Hnow.
  - rewrite (Read_found ctx' k now _ (expiredAt start e) Hskip)
      by (rewrite ExpireAll_lookup by done; by rewrite Hk).
    by apply prepareRead_expired.
  - rewrite (Read_found ctx' k now _ (expiredAt start e) Hskip)
      by (rewrite ExpireAll_lookup by done; by rewrite Hk).
    by rewrite prepareRead_live.
Qed.

Lemma ExpireAll_keeps_entries_and_expires_them_witness :
  SyncMap.Len keyOrder (SyncMap.ExpireAll keyOrder cache.Background 5000 abc)
  = SyncMap.Len keyOrder abc
  ∧ (SyncMap.Read cache.Background "b" 5001
       (SyncMap.ExpireAll keyOrder cache.Background 5000 abc)).1
    = Done (None, Some (cache.errExpired (expiredAt 5000 entry_b)))
  ∧ (SyncMap.Read cache.Background "b" 5000
       (SyncMap.ExpireAll keyOrder cache.Background 5000 abc)).1
    = Done (Some "2"%string, None).
Proof.
  destruct (ExpireAll_keeps_entries_and_expires_them string keyOrder
              cache.Background 5000 abc ltac:(intros; reflexivity))
    as (Hlen & _ & Hlater & Hsame).
  split; [exact Hlen |]. split.
  - apply (Hlater cache.Background "b" entry_b 5001);
      [reflexivity | vm_compute; reflexivity | lia].
  - apply (Hsame cache.Background "b" entry_b 5000);
      [reflexivity | vm_compute; reflexivity | lia].
Defined.

(** A read at the very clock reading [ExpireAll] took is not classified as
    expired: it returns the value. *)
Lemma ExpireAll_then_Read_at_same_instant :
  (SyncMap.Read cache.Background "b" 5000
     (SyncMap.ExpireAll keyOrder cache.Background 5000 abc)).1
  = Done (Some "2"%string, None)
  ∧ (SyncMap.Read cache.Background "b" 5000
       (SyncMap.ExpireAll keyOrder cache.Background 5000 abc)).1
    ≠ Done (None, Some (cache.errExpired (expiredAt 5000 entry_b))).
Proof. vm_compute. split; [reflexivity | discriminate]. Qed.

(** ** Eviction *)

Section EvictionLoop.

Context {Value : Type}.
Implicit Types (m : gmap string (SyncMap.entry Value)).
Implicit Types (l rest : list SyncMap.en).

Lemma evict_loop_prefix rest i n m :
  i ≤ n → n - i ≤ Z.of_nat (length rest) →
  SyncMap.evict_loop i n rest m
  = Done (deleteKeys (take (Z.to_nat (n - i)) rest) m).
Proof.
  revert i m. induction rest as [| e rest IH]; intros i m Hin Hlen; simpl.
  - simpl in Hlen. destruct (Z.ltb_spec i n); [lia |].
    by replace (n - i) with 0 by lia.
  - destruct (Z.ltb_spec i n) as [Hlt | Hge].
    + rewrite IH by (simpl in Hlen; lia).
      replace (Z.to_nat (n - i)) with (Datatypes.S (Z.to_nat (n - (i + 1))))
        by lia.
      done.
    + by replace (n - i) with 0 by lia.
Qed.

(** More deletions than entries: the index runs off the slice. *)
Lemma evict_loop_overrun rest i n m :
  Z.of_nat (length rest) < n - i →
  SyncMap.evict_loop i n rest m = Panic "index out of range".
Proof.
  revert i m. induction rest as [| e rest IH]; intros i m Hlen; simpl.
  - simpl in Hlen. by destruct (Z.ltb_spec i n); [| lia].
  - destruct (Z.ltb_spec i n) as [Hlt | Hge]; [| simpl in Hlen; lia].
    apply IH. simpl in Hlen. lia.
Qed.

Lemma deleteKeys_lookup l m k :
  deleteKeys l m !! k
  = if decide (k ∈ SyncMap.key <$> l) then None else m !! k.
Proof.
  revert m. induction l as [| e l IH]; intros m; simpl.
  - done.
  - unfold deleteKeys in *. simpl. rewrite IH.
    change (list_fmap _ _ SyncMap.key l) with (SyncMap.key <$> l).
    destruct (decide (k = SyncMap.key e)) as [-> | Hne].
    + rewrite lookup_delete_eq.
      rewrite (decide_True (P := _ ∈ _ :: _)) by apply list_elem_of_here.
      by destruct (decide _).
    + rewrite lookup_delete_ne by done.
      destruct (decide (k ∈ SyncMap.key <$> l)) as [Hin | Hout].
      * by rewrite decide_True by (by apply list_elem_of_further).
      * rewrite decide_False; [done |].
        rewrite elem_of_cons. by intros [? | ?].
Qed.

Lemma deleteKeys_size l m :
  NoDup (SyncMap.key <$> l) →
  (∀ k, k ∈ SyncMap.key <$> l → is_Some (m !! k)) →
  (size (deleteKeys l m) + length l)%nat = size m.
Proof.
  revert m. induction l as [| e l IH]; intros m Hnd Hin; simpl; [lia |].
  rewrite fmap_cons in Hnd, Hin. apply NoDup_cons in Hnd as [Hfresh Hnd].
  unfold deleteKeys in *. simpl.
  assert (is_Some (m !! SyncMap.key e)) as Hhere
    by apply Hin, list_elem_of_here.
  pose proof (map_size_delete_Some (SyncMap.key e) m Hhere) as Hsz.
  destruct Hhere as [x Hx].
  assert (size m ≠ 0%nat) as Hpos.
  { intros Hz. apply map_size_empty_inv in Hz. subst m.
    by rewrite lookup_empty in Hx. }
  specialize (IH (delete (SyncMap.key e) m) Hnd).
  rewrite <- IH in Hsz.
  - lia.
  - intros k Hk. rewrite lookup_delete_ne.
    + by apply Hin, list_elem_of_further.
    + intros <-. by apply Hfresh.
Qed.

End EvictionLoop.

Section Eviction.

Context {Value : Type}.
Variable Range : gmap string (SyncMap.entry Value)
                 → list (string * SyncMap.entry Value).
Hypothesis Range_perm : ∀ m, Range m ≡ₚ map_to_list m.

(** What the [sort] package promises of [sort.Slice]: the elements are
    rearranged, and afterwards no element is less than one before it. *)
Variable sort_Slice : (SyncMap.en → SyncMap.en → bool)
                      → list SyncMap.en → list SyncMap.en.
Hypothesis sort_Slice_perm : ∀ l, sort_Slice SyncMap.en_less l ≡ₚ l.
Hypothesis sort_Slice_sorted :
  ∀ l, StronglySorted (λ a b, SyncMap.en_less b a = false)
         (sort_Slice SyncMap.en_less l).

Implicit Types (m : gmap string (SyncMap.entry Value)).
Implicit Types (c : SyncMap.syncMap Value).

Lemma foldl_snapshot (visits : list (string * SyncMap.entry Value)) acc :
  foldl (λ entries '(_, i),
           entries ++ [{| SyncMap.expireAt := SyncMap.E i;
                          SyncMap.key := SyncMap.K i |}])
        acc visits
  = acc ++ snapshot visits.
Proof.
  revert acc. induction visits as [| [k i] visits IH]; intros acc; simpl.
  - by rewrite app_nil_r.
  - rewrite IH. by rewrite <- app_assoc.
Qed.

Lemma Range_lookup m k e : (k, e) ∈ Range m → m !! k = Some e.
Proof. rewrite Range_perm. apply elem_of_map_to_list. Qed.

Lemma snapshot_keys m :
  keyed m → SyncMap.key <$> snapshot (Range m) = (Range m).*1.
Proof.
  intros Hkeyed. unfold snapshot. rewrite <- list_fmap_compose.
  apply list_fmap_ext. intros i [k e] Hi. simpl.
  apply Hkeyed, Range_lookup. by eapply list_elem_of_lookup_2.
Qed.

Lemma order_perm m :
  sort_Slice SyncMap.en_less (snapshot (Range m))
  ≡ₚ snapshot (map_to_list m).
Proof. rewrite sort_Slice_perm. unfold snapshot. by rewrite Range_perm. Qed.

Lemma order_length m :
  length (sort_Slice SyncMap.en_less (snapshot (Range m))) = size m.
Proof.
  rewrite order_perm. unfold snapshot.
  by rewrite length_fmap, length_map_to_list.
Qed.

Lemma order_oldestFirst l : oldestFirst (sort_Slice SyncMap.en_less l).
Proof.
  unfold oldestFirst.
  induction (sort_Slice_sorted l) as [| a l' Hsorted IH Hall];
    constructor; [done |].
  eapply Forall_impl; [exact Hall |].
  intros b Hb. unfold SyncMap.en_less, Time_Before in Hb. simpl in Hb. lia.
Qed.

Lemma order_keys_NoDup m :
  keyed m →
  NoDup (SyncMap.key <$> sort_Slice SyncMap.en_less (snapshot (Range m))).
Proof.
  intros Hkeyed. rewrite sort_Slice_perm, snapshot_keys by done.
  rewrite Range_perm. apply NoDup_fst_map_to_list.
Qed.

Lemma order_keys_present m k :
  keyed m →
  k ∈ SyncMap.key <$> sort_Slice SyncMap.en_less (snapshot (Range m)) →
  is_Some (m !! k).
Proof.
  intros Hkeyed. rewrite sort_Slice_perm, snapshot_keys by done.
  intros Hin. apply list_elem_of_fmap in Hin as ([k' e] & -> & Hin).
  exists e. by apply Range_lookup.
Qed.

Lemma evictOldest_unfold c :
  SyncMap.evictOldest Range sort_Slice c
  = let order := sort_Slice SyncMap.en_less (snapshot (Range (SyncMap.data c))) in
    let n := evictItems c (size (SyncMap.data c)) in
    match SyncMap.evict_loop 0 n order (SyncMap.data c) with
    | Done m =>
        Done (SyncMap.emit c m
                (SyncMap.statAdd (SyncMap.t c) cache.MetricEvict
                   (float64_of_int n)))
    | Panic reason => Panic reason
    end.
Proof.
  unfold SyncMap.evictOldest. rewrite foldl_snapshot. simpl.
  by rewrite order_length.
Qed.

Lemma evictOldest_in_range c :
  keyed (SyncMap.data c) →
  let order :=
    sort_Slice SyncMap.en_less (snapshot (Range (SyncMap.data c))) in
  let n := evictItems c (size (SyncMap.data c)) in
  0 ≤ n ≤ Z.of_nat (size (SyncMap.data c)) →
  ∃ c', SyncMap.evictOldest Range sort_Slice c = Done c'
        ∧ SyncMap.data c' = deleteKeys (take (Z.to_nat n) order) (SyncMap.data c)
        ∧ Z.of_nat (size (SyncMap.data c'))
          = Z.of_nat (size (SyncMap.data c)) - n
        ∧ SyncMap.emitted c'
          = SyncMap.emitted c
            ++ SyncMap.statAdd (SyncMap.t c) cache.MetricEvict
                 (float64_of_int n)
        ∧ SyncMap.t c' = SyncMap.t c.
Proof.
  intros Hkeyed order n Hn. rewrite evictOldest_unfold. simpl.
  fold order. fold n.
  assert (length order = size (SyncMap.data c)) as Hlen
    by apply order_length.
  rewrite evict_loop_prefix by lia.
  rewrite Z.sub_0_r. eexists. split; [done |]. simpl.
  split; [done |]. split; [| done].
  pose proof (deleteKeys_size (take (Z.to_nat n) order) (SyncMap.data c))
    as Hsize.
  rewrite length_take_le in Hsize by lia.
  rewrite <- Hsize; [lia | |].
  - rewrite fmap_take.
    eapply sublist_NoDup; [by apply order_keys_NoDup | apply sublist_take].
  - intros k Hk. apply order_keys_present; [done |].
    rewrite fmap_take in Hk. by eapply subseteq_take.
Qed.

End Eviction.

(** ** The insertion sort meets what [sort.Slice] promises *)

Lemma insertSorted_perm {A : Type} (less : A → A → bool) x l :
  insertSorted less x l ≡ₚ x :: l.
Proof.
  induction l as [| y l IH]; simpl; [done |].
  destruct (less y x); [| done].
  rewrite IH. apply perm_swap.
Qed.

Lemma insertionSort_perm {A : Type} (less : A → A → bool) l :
  insertionSort less l ≡ₚ l.
Proof.
  induction l as [| x l IH]; simpl; [done |].
  unfold insertionSort in *. simpl. by rewrite insertSorted_perm, IH.
Qed.

Lemma insertSorted_sorted x l :
  StronglySorted (λ a b, SyncMap.en_less b a = false) l →
  StronglySorted (λ a b, SyncMap.en_less b a = false)
    (insertSorted SyncMap.en_less x l).
Proof.
  unfold SyncMap.en_less, Time_Before.
  induction 1 as [| y l Hsorted IH Hall]; simpl.
  - repeat constructor.
  - destruct (Z.ltb_spec (SyncMap.expireAt y) (SyncMap.expireAt x)).
    + constructor; [done |].
      rewrite (insertSorted_perm _ x l). constructor; [| done].
      apply Z.ltb_ge. lia.
    + constructor; [by constructor |].
      constructor; [apply Z.ltb_ge; lia |].
      eapply Forall_impl; [exact Hall |].
      intros z Hz. simpl in Hz. apply Z.ltb_ge in Hz. apply Z.ltb_ge. lia.
Qed.

Lemma insertionSort_sorted l :
  StronglySorted (λ a b, SyncMap.en_less b a = false)
    (insertionSort SyncMap.en_less l).
Proof.
  induction l as [| x l IH]; [constructor |].
  unfold insertionSort in *. simpl. by apply insertSorted_sorted.
Qed.

(** ** Every entry sits under its own key *)

Section Keyed.

Context {Value : Type}.
Implicit Types (c : SyncMap.syncMap Value).

Lemma keyed_NewSyncMap options :
  keyed (SyncMap.data (SyncMap.NewSyncMap (Value := Value) options)).
Proof. intros k e. simpl. by rewrite lookup_empty. Qed.

Lemma keyed_Write ctx k v now r c :
  keyed (SyncMap.data c) →
  keyed (SyncMap.data (SyncMap.Write ctx k v now r c).2).
Proof.
  intros Hkeyed k' e. rewrite Write_data.
  destruct (decide (k = k')) as [-> | Hne].
  - rewrite lookup_insert_eq. by intros [= <-].
  - rewrite lookup_insert_ne by done. apply Hkeyed.
Qed.


Lemma keyed_storeAll records (m : gmap string (SyncMap.entry Value)) :
  keyed m → keyed (storeAll records m).
Proof.
  intros Hkeyed k e. rewrite storeAll_lookup. unfold lastRecord.
  destruct (last _) as [e' |] eqn:Hlast; [| apply Hkeyed].
  intros [= <-]. apply last_Some_elem_of in Hlast.
  by apply list_elem_of_filter in Hlast as [? _].
Qed.




End Keyed.




(** ** Construction *)




(** ** The janitor *)

Lemma wrap64_in_range z : min_int64 ≤ z ≤ max_int64 → wrap64 z = z.
Proof.
  unfold wrap64, min_int64, max_int64. intros Hz.
  rewrite Z.mod_small; lia.
Qed.

Section JanitorSyncMap.

Context {Value : Type}.
Variable Range : gmap string (SyncMap.entry Value)
                 → list (string * SyncMap.entry Value).
Hypothesis Range_perm : ∀ m, Range m ≡ₚ map_to_list m.

Implicit Types (m : gmap string (SyncMap.entry Value)).
Implicit Types (c : SyncMap.syncMap Value).

Lemma foldl_delete_expired (boundary : Z)
    (l : list (string * SyncMap.entry Value)) m k :
  NoDup l.*1 →
  foldl (λ m '(k, cacheEntry),
           if Time_Before (SyncMap.E cacheEntry) boundary
           then delete k m else m) m l !! k
  = match (list_to_map l : gmap _ _) !! k with
    | Some e => if SyncMap.E e <? boundary then None else m !! k
    | None => m !! k
    end.
Proof.
  revert m. induction l as [| [k0 e0] l IH]; intros m Hnd; [done |].
  apply NoDup_cons in Hnd as [Hk0 Hnd]. simpl. rewrite IH by done.
  unfold Time_Before.
  destruct (decide (k = k0)) as [-> | Hne].
  - rewrite (not_elem_of_list_to_map_1 l k0 Hk0), lookup_insert_eq.
    destruct (SyncMap.E e0 <? boundary); [apply lookup_delete_eq | done].
  - rewrite lookup_insert_ne by done.
    assert ((if SyncMap.E e0 <? boundary then delete k0 m else m) !! k
            = m !! k) as ->; [| done].
    destruct (SyncMap.E e0 <? boundary); [by apply lookup_delete_ne | done].
Qed.

Lemma deleteExpired_data boundary m :
  foldl (λ m '(k, cacheEntry),
           if Time_Before (SyncMap.E cacheEntry) boundary
           then delete k m else m) m (Range m)
  = filter (λ kv, boundary ≤ SyncMap.E kv.2) m.
Proof.
  apply map_eq. intros k.
  rewrite foldl_delete_expired by (by apply Range_NoDup_keys).
  rewrite (Range_to_map Range Range_perm).
  destruct (m !! k) as [e |] eqn:Hk.
  - destruct (Z.ltb_spec (SyncMap.E e) boundary) as [Hlt | Hge]; symmetry.
    + apply map_lookup_filter_None. right. intros e' He'. simpl.
      simplify_eq. lia.
    + by apply map_lookup_filter_Some.
  - symmetry. apply map_lookup_filter_None. by left.
Qed.

Lemma overflow_iff heapInuse c :
  limitsInRange (SyncMap.Config (SyncMap.t c)) →
  SyncMap.heapInUseOverflow heapInuse c || SyncMap.countOverflow Range c
  = true
  ↔ underPressure (SyncMap.Config (SyncMap.t c)) heapInuse
      (Z.of_nat (size (SyncMap.data c))).
Proof.
  intros (Hheap & Hcount & _).
  unfold SyncMap.heapInUseOverflow, SyncMap.countOverflow, underPressure,
    int_of_uint64.
  rewrite (Len_size Range Range_perm).
  rewrite wrap64_in_range by (unfold min_int64; lia).
  rewrite orb_true_iff.
  destruct (Z.eqb_spec (cache.HeapInUseSoftLimit (SyncMap.Config (SyncMap.t c))) 0);
    destruct (Z.eqb_spec (cache.CountSoftLimit (SyncMap.Config (SyncMap.t c))) 0);
    rewrite ?Z.leb_le; intuition (try discriminate; try lia).
Qed.

Lemma janitor_tick_syncMap sort_Slice now heapInuse c :
  limitsInRange (SyncMap.Config (SyncMap.t c)) →
  let cutoff := now - cache.DeleteExpiredAfter (SyncMap.Config (SyncMap.t c)) in
  let c1 := afterDeleteExpired cutoff c in
  (underPressure (SyncMap.Config (SyncMap.t c)) heapInuse
     (Z.of_nat (size (SyncMap.data c1))) →
   SyncMap.janitor_tick Range sort_Slice now heapInuse c
   = SyncMap.evictOldest Range sort_Slice c1)
  ∧ (¬ underPressure (SyncMap.Config (SyncMap.t c)) heapInuse
         (Z.of_nat (size (SyncMap.data c1))) →
     SyncMap.janitor_tick Range sort_Slice now heapInuse c = Done c1).
Proof.
  intros Hrange cutoff c1.
  unfold SyncMap.janitor_tick, SyncMap.deleteExpiredBefore.
  rewrite wrap64_in_range
    by (destruct Hrange as (_ & _ & ?); unfold min_int64, max_int64 in *; lia).
  rewrite deleteExpired_data. unfold Time_Add, SyncMap.emit.
  rewrite app_nil_r, Z.add_opp_r. fold cutoff.
  change {| SyncMap.data := _; SyncMap.t := _; SyncMap.emitted := _ |}
    with c1.
  pose proof (overflow_iff heapInuse c1 Hrange) as Hiff.
  destruct (_ || _); split; intros Hp; try done.
  - destruct Hp. by apply Hiff.
  - by apply Hiff in Hp.
Qed.

End JanitorSyncMap.

Section JanitorTrait.

Context {B : Type}.
Implicit Types (C : TraitGo.Trait B) (b : B).



End JanitorTrait.



(** * Further properties of the code *)

(** ** Point operations *)

Lemma added_app evs evs' : added (evs ++ evs') = added evs ++ added evs'.
Proof. apply omap_app. Qed.

Lemma added_logDebug (tr : SyncMap.trait) msg :
  added (SyncMap.logDebug tr msg) = [].
Proof. unfold SyncMap.logDebug. by destruct (cache.logDebug _). Qed.

Lemma added_logImportant (tr : SyncMap.trait) msg :
  added (SyncMap.logImportant tr msg) = [].
Proof. unfold SyncMap.logImportant. by destruct (cache.logImportant _). Qed.

Lemma added_statAdd (tr : SyncMap.trait) name val :
  added (SyncMap.statAdd tr name val)
  = if SyncMap.Stat tr then [(name, val)] else [].
Proof. unfold SyncMap.statAdd. by destruct (SyncMap.Stat tr). Qed.

(** The result of a read depends on the store only through the entry of
    the key. *)
Lemma Read_result_ext {Value : Type} (c c' : SyncMap.syncMap Value)
    ctx k now :
  SyncMap.data c' !! k = SyncMap.data c !! k →
  SyncMap.t c' = SyncMap.t c →
  (SyncMap.Read ctx k now c').1 = (SyncMap.Read ctx k now c).1.
Proof.
  intros Hk Ht. unfold SyncMap.Read. rewrite Hk, Ht.
  destruct (cache.SkipRead ctx); [done |].
  destruct (SyncMap.data c !! k);
    by destruct (SyncMap.prepareRead _ _ _ _).
Qed.

Lemma Read_result {Value : Type} (c : SyncMap.syncMap Value) ctx k now :
  (SyncMap.Read ctx k now c).1
  = (if cache.SkipRead ctx then Done (None, Some cache.ErrNotFound)
     else match SyncMap.data c !! k with
          | None => Done (None, Some cache.ErrNotFound)
          | Some e =>
              if SyncMap.E e <? now
              then Done (None, Some (cache.errExpired e))
              else Done (Some (SyncMap.V e), None)
          end).
Proof.
  unfold SyncMap.Read. destruct (cache.SkipRead ctx); [done |].
  destruct (SyncMap.data c !! k) as [e |]; [| done].
  unfold SyncMap.prepareRead, Time_Before. simpl.
  by destruct (SyncMap.E e <? now).
Qed.


(** X1.  [Read] never panics and never changes the store or the trait: a
    stale entry stays where it is.  Its result follows from the flag and
    the store alone: with the skip-read flag it is [ErrNotFound], whatever
    the store holds, and nothing reaches the sinks; otherwise it is
    [ErrNotFound] for a key without entry, the expired error carrying the
    stored entry when its expiration is before now, and the stored value
    when it is not. *)
Theorem Read_total_and_read_only :
  ∀ (Value : Type) (c : SyncMap.syncMap Value) (ctx : cache.context)
    (k : string) (now : Z),
    SyncMap.data (SyncMap.Read ctx k now c).2 = SyncMap.data c
    ∧ SyncMap.t (SyncMap.Read ctx k now c).2 = SyncMap.t c
    ∧ (SyncMap.Read ctx k now c).1
      = (if cache.SkipRead ctx then Done (None, Some cache.ErrNotFound)
         else match SyncMap.data c !! k with
              | None => Done (None, Some cache.ErrNotFound)
              | Some e =>
                  if SyncMap.E e <? now
                  then Done (None, Some (cache.errExpired e))
                  else Done (Some (SyncMap.V e), None)
              end)
    ∧ SyncMap.Read (cache.WithSkipRead ctx) k now c
      = (Done (None, Some cache.ErrNotFound), c).
Proof.
  intros Value c ctx k now. unfold SyncMap.Read.
  split; [| split; [| split]]; try reflexivity.
  - destruct (cache.SkipRead ctx); [done |].
    destruct (SyncMap.data c !! k);
      by destruct (SyncMap.prepareRead _ _ _ _).
  - destruct (cache.SkipRead ctx); [done |].
    destruct (SyncMap.data c !! k);
      by destruct (SyncMap.prepareRead _ _ _ _).
  - apply Read_result.
Qed.

(** X2.  Write then read.  After [Write] of [v] under [k] at the instant
    [now], whatever [k] held before, a read of [k] without the skip-read
    flag returns [v] as long as the clock has not passed [now] plus the TTL
    of the write, and from then on the expired error carrying [v] and that
    expiration; [Write] returns no error, and reads of every other key
    give what they gave before. *)
Theorem Write_then_Read_round_trip :
  ∀ (Value : Type) (c : SyncMap.syncMap Value) (ctx ctx' : cache.context)
    (k k' : string) (v : Value) (now now' : Z) (r : float),
    cache.SkipRead ctx' = false →
    let c' := (SyncMap.Write ctx k v now r c).2 in
    let expires := now + SyncMap.TTL (SyncMap.t c) ctx r in
    (SyncMap.Write ctx k v now r c).1 = None
    ∧ (SyncMap.Read ctx' k now' c').1
      = (if expires <? now'
         then Done (None, Some (cache.errExpired
                 {| SyncMap.K := k; SyncMap.V := v; SyncMap.E := expires |}))
         else Done (Some v, None))
    ∧ (k' ≠ k →
       (SyncMap.Read ctx' k' now' c').1 = (SyncMap.Read ctx' k' now' c).1).
Proof.
  intros Value c ctx ctx' k k' v now now' r Hskip c' expires.
  split; [reflexivity |]. split.
  - by apply Write_then_Read.
  - intros Hne. apply Read_result_ext; [| done].
    subst c'. rewrite Write_data. by apply lookup_insert_ne.
Qed.

Lemma Write_then_Read_round_trip_witness :
  (SyncMap.Read cache.Background "b" 300000002000
     (SyncMap.Write cache.Background "b" "new"%string 2000 float_0_5 abc).2).1
  = Done (Some "new"%string, None)
  ∧ (SyncMap.Read cache.Background "b" 300000002001
       (SyncMap.Write cache.Background "b" "new"%string 2000 float_0_5 abc).2).1
    = Done (None, Some (cache.errExpired
              {| SyncMap.K := "b"; SyncMap.V := "new"%string;
                 SyncMap.E := 300000002000 |}))
  ∧ (SyncMap.Read cache.Background "a" 5000
       (SyncMap.Write cache.Background "b" "new"%string 2000 float_0_5 abc).2).1
    = (SyncMap.Read cache.Background "a" 5000 abc).1.
Proof.
  split; [| split].
  - destruct (Write_then_Read_round_trip string abc cache.Background
                cache.Background "b" "a" "new"%string 2000 300000002000
                float_0_5 eq_refl) as (_ & Hread & _).
    rewrite Hread. vm_compute. reflexivity.
  - destruct (Write_then_Read_round_trip string abc cache.Background
                cache.Background "b" "a" "new"%string 2000 300000002001
                float_0_5 eq_refl) as (_ & Hread & _).
    rewrite Hread. vm_compute. reflexivity.
  - destruct (Write_then_Read_round_trip string abc cache.Background
                cache.Background "b" "a" "new"%string 2000 5000
                float_0_5 eq_refl) as (_ & _ & Hother).
    apply Hother. discriminate.
Defined.

(** X3.  Delete then read.  After [Delete] of [k] a read of [k] without
    the skip-read flag returns [ErrNotFound], whether or not [k] had an
    entry; reads of every other key give what they gave before; and a
    second [Delete] of [k] leaves the store as the first left it. *)
Theorem Delete_then_Read_not_found :
  ∀ (Value : Type) (c : SyncMap.syncMap Value) (ctx ctx' : cache.context)
    (k k' : string) (now : Z),
    cache.SkipRead ctx' = false →
    let c' := (SyncMap.Delete ctx k c).2 in
    (SyncMap.Read ctx' k now c').1 = Done (None, Some cache.ErrNotFound)
    ∧ (k' ≠ k →
       (SyncMap.Read ctx' k' now c').1 = (SyncMap.Read ctx' k' now c).1)
    ∧ SyncMap.data (SyncMap.Delete ctx k c').2 = SyncMap.data c'.
Proof.
  intros Value c ctx ctx' k k' now Hskip c'. split; [| split].
  - by apply Delete_then_Read.
  - intros Hne. apply Read_result_ext; [| done].
    subst c'. simpl. by apply lookup_delete_ne.
  - subst c'. simpl. apply delete_id, lookup_delete_eq.
Qed.

Lemma Delete_then_Read_not_found_witness :
  (SyncMap.Read cache.Background "b" 5000
     (SyncMap.Delete cache.Background "b" abc).2).1
  = Done (None, Some cache.ErrNotFound)
  ∧ (SyncMap.Read cache.Background "a" 5000
       (SyncMap.Delete cache.Background "b" abc).2).1
    = Done (Some "1"%string, None).
Proof.
  destruct (Delete_then_Read_not_found string abc cache.Background
              cache.Background "b" "a" 5000 eq_refl) as (Hgone & Hother & _).
  split; [exact Hgone |].
  rewrite Hother by discriminate. vm_compute. reflexivity.
Defined.

(** X4.  What the point operations count.  With a metrics sink, a read
    without the skip-read flag adds one to exactly one of the metrics
    miss, expired and hit, as its result is; a read with the flag adds
    nothing; [Write] adds one write; [Delete] adds one delete, also for a
    key that has no entry.  Without a sink nothing is added. *)
Theorem point_operations_count_once :
  ∀ (Value : Type) (c : SyncMap.syncMap Value) (ctx : cache.context)
    (k : string) (v : Value) (now : Z) (r : float),
    let one (name : cache.metric) :=
      if SyncMap.Stat (SyncMap.t c) then [(name, 1%float)] else [] in
    added (SyncMap.emitted (SyncMap.Read ctx k now c).2)
    = added (SyncMap.emitted c)
      ++ (if cache.SkipRead ctx then []
          else match SyncMap.data c !! k with
               | None => one cache.MetricMiss
               | Some e => if SyncMap.E e <? now then one cache.MetricExpired
                           else one cache.MetricHit
               end)
    ∧ added (SyncMap.emitted (SyncMap.Write ctx k v now r c).2)
      = added (SyncMap.emitted c) ++ one cache.MetricWrite
    ∧ added (SyncMap.emitted (SyncMap.Delete ctx k c).2)
      = added (SyncMap.emitted c) ++ one cache.MetricDelete.
Proof.
  intros Value c ctx k v now r one. subst one. split; [| split].
  - unfold SyncMap.Read. destruct (cache.SkipRead ctx).
    { by rewrite app_nil_r. }
    destruct (SyncMap.data c !! k) as [e |];
      unfold SyncMap.prepareRead, Time_Before; simpl.
    + destruct (SyncMap.E e <? now); simpl;
        by rewrite !added_app, added_logDebug, added_statAdd, ?app_nil_r.
    + by rewrite !added_app, added_logDebug, added_statAdd.
  - simpl. unfold SyncMap.NotifyWritten.
    by rewrite !added_app, added_logDebug, added_statAdd.
  - simpl. unfold SyncMap.NotifyDeleted.
    by rewrite !added_app, added_logDebug, added_statAdd.
Qed.

(** ** Counting and clearing *)

(** X5.  [Len] is the number of entries of the store, expired ones
    included.  [Write] raises it by one for a key that had no entry and
    keeps it for a key that had one; [Delete] lowers it by one for a key
    that had an entry and keeps it for a key that had none; [Read] keeps
    it. *)
Theorem Len_counts_entries :
  ∀ (Value : Type)
    (Range : gmap string (SyncMap.entry Value)
             → list (string * SyncMap.entry Value))
    (c : SyncMap.syncMap Value) (ctx : cache.context) (k : string)
    (v : Value) (now : Z) (r : float),
    (∀ m, Range m ≡ₚ map_to_list m) →
    SyncMap.Len Range c = Z.of_nat (size (SyncMap.data c))
    ∧ SyncMap.Len Range (SyncMap.Write ctx k v now r c).2
      = (match SyncMap.data c !! k with
         | Some _ => SyncMap.Len Range c
         | None => SyncMap.Len Range c + 1
         end)
    ∧ SyncMap.Len Range (SyncMap.Delete ctx k c).2
      = (match SyncMap.data c !! k with
         | Some _ => SyncMap.Len Range c - 1
         | None => SyncMap.Len Range c
         end)
    ∧ SyncMap.Len Range (SyncMap.Read ctx k now c).2 = SyncMap.Len Range c.
Proof.
  intros Value Range c ctx k v now r HRange.
  rewrite !(Len_size Range HRange). split; [done |].
  split; [| split].
  - rewrite Write_data, map_size_insert.
    destruct (SyncMap.data c !! k); simpl; lia.
  - simpl. rewrite map_size_delete.
    destruct (SyncMap.data c !! k) as [e |] eqn:Hk; simpl; [| done].
    assert (size (SyncMap.data c) ≠ 0%nat); [| lia].
    intros Hz. apply map_size_empty_inv in Hz.
    by rewrite Hz, lookup_empty in Hk.
  - f_equal. f_equal. unfold SyncMap.Read.
    destruct (cache.SkipRead ctx); [done |].
    destruct (SyncMap.data c !! k);
      by destruct (SyncMap.prepareRead _ _ _ _).
Qed.

Lemma Len_counts_entries_witness :
  SyncMap.Len keyOrder abc = 3
  ∧ SyncMap.Len keyOrder
      (SyncMap.Write cache.Background "d" "4"%string 4000 float_0_5 abc).2 = 4
  ∧ SyncMap.Len keyOrder
      (SyncMap.Write cache.Background "b" "4"%string 4000 float_0_5 abc).2 = 3
  ∧ SyncMap.Len keyOrder (SyncMap.Delete cache.Background "b" abc).2 = 2
  ∧ SyncMap.Len keyOrder (SyncMap.Delete cache.Background "d" abc).2 = 3.
Proof.
  destruct (Len_counts_entries string keyOrder abc cache.Background "d"
              "4"%string 4000 float_0_5 ltac:(intros; reflexivity))
    as (Hlen & Hnew & Habsent & _).
  destruct (Len_counts_entries string keyOrder abc cache.Background "b"
              "4"%string 4000 float_0_5 ltac:(intros; reflexivity))
    as (_ & Hold & Hpresent & _).
  split; [by rewrite Hlen |].
  split; [by rewrite Hnew, Hlen |].
  split; [by rewrite Hold, Hlen |].
  split; [by rewrite Hpresent, Hlen | by rewrite Habsent, Hlen].
Defined.

Lemma DeleteAll_emitted {Value : Type}
    (Range : gmap string (SyncMap.entry Value)
             → list (string * SyncMap.entry Value))
    ctx (c : SyncMap.syncMap Value) :
  (∀ m, Range m ≡ₚ map_to_list m) →
  SyncMap.emitted (SyncMap.DeleteAll Range ctx c)
  = SyncMap.emitted c
    ++ SyncMap.NotifyDeletedAll (SyncMap.t c)
         (Z.of_nat (size (SyncMap.data c))).
Proof.
  intros HRange. unfold SyncMap.DeleteAll.
  destruct (foldl_delete_all (Range (SyncMap.data c)) (SyncMap.data c) 0)
    as (m' & Hfold & _).
  rewrite Hfold. simpl. by rewrite (Range_length Range HRange).
Qed.

(** X6.  [DeleteAll] leaves no entry: the store is empty, [Len] is 0 and
    every read without the skip-read flag returns [ErrNotFound].  What it
    adds to the delete metric is the number of entries it found. *)
Theorem DeleteAll_leaves_nothing :
  ∀ (Value : Type)
    (Range : gmap string (SyncMap.entry Value)
             → list (string * SyncMap.entry Value))
    (c : SyncMap.syncMap Value) (ctx : cache.context),
    (∀ m, Range m ≡ₚ map_to_list m) →
    let c' := SyncMap.DeleteAll Range ctx c in
    SyncMap.data c' = ∅
    ∧ SyncMap.Len Range c' = 0
    ∧ (∀ ctx' k now,
         cache.SkipRead ctx' = false →
         (SyncMap.Read ctx' k now c').1
         = Done (None, Some cache.ErrNotFound))
    ∧ added (SyncMap.emitted c')
      = added (SyncMap.emitted c)
        ++ (if SyncMap.Stat (SyncMap.t c)
            then [(cache.MetricDelete,
                   float64_of_int (Z.of_nat (size (SyncMap.data c))))]
            else []).
Proof.
  intros Value Range c ctx HRange c'. subst c'.
  pose proof (DeleteAll_data Range HRange ctx c) as Hdata.
  split; [done |]. split; [| split].
  - by rewrite (Len_size Range HRange), Hdata, map_size_empty.
  - intros ctx' k now Hskip. unfold SyncMap.Read.
    by rewrite Hskip, Hdata, lookup_empty.
  - rewrite DeleteAll_emitted by done. unfold SyncMap.NotifyDeletedAll.
    by rewrite !added_app, added_logImportant, added_statAdd.
Qed.

Lemma DeleteAll_leaves_nothing_witness :
  SyncMap.Len keyOrder (SyncMap.DeleteAll keyOrder cache.Background abcHalf)
  = 0
  ∧ (SyncMap.Read cache.Background "a" 5000
       (SyncMap.DeleteAll keyOrder cache.Background abcHalf)).1
    = Done (None, Some cache.ErrNotFound)
  ∧ last (added (SyncMap.emitted
                   (SyncMap.DeleteAll keyOrder cache.Background abcHalf)))
    = Some (cache.MetricDelete, 3%float).
Proof.
  destruct (DeleteAll_leaves_nothing string keyOrder abcHalf cache.Background
              ltac:(intros; reflexivity)) as (_ & Hlen & Hread & Hadded).
  split; [exact Hlen |]. split; [by apply Hread |].
  rewrite Hadded. vm_compute. reflexivity.
Defined.

(** ** The janitor without pressure *)

Lemma no_limits_no_pressure config heapInuse len :
  cache.HeapInUseSoftLimit config = 0 →
  cache.CountSoftLimit config = 0 →
  ¬ underPressure config heapInuse len.
Proof. intros Hh Hc [[? ?] | [? ?]]; lia. Qed.

Lemma janitor_tick_no_limits {Value : Type}
    (Range : gmap string (SyncMap.entry Value)
             → list (string * SyncMap.entry Value))
    sort_Slice now heapInuse (c : SyncMap.syncMap Value) :
  (∀ m, Range m ≡ₚ map_to_list m) →
  cache.HeapInUseSoftLimit (SyncMap.Config (SyncMap.t c)) = 0 →
  cache.CountSoftLimit (SyncMap.Config (SyncMap.t c)) = 0 →
  min_int64 < cache.DeleteExpiredAfter (SyncMap.Config (SyncMap.t c))
  ≤ max_int64 →
  SyncMap.janitor_tick Range sort_Slice now heapInuse c
  = Done (afterDeleteExpired
            (now - cache.DeleteExpiredAfter (SyncMap.Config (SyncMap.t c))) c).
Proof.
  intros HRange Hh Hc Hgrace.
  apply (janitor_tick_syncMap Range HRange sort_Slice now heapInuse c).
  - unfold limitsInRange, min_int64, max_int64 in *. rewrite Hh, Hc. lia.
  - by apply no_limits_no_pressure.
Qed.

Lemma afterDeleteExpired_lookup {Value : Type} cutoff
    (c : SyncMap.syncMap Value) k :
  SyncMap.data (afterDeleteExpired cutoff c) !! k
  = match SyncMap.data c !! k with
    | Some e => if SyncMap.E e <? cutoff then None else Some e
    | None => None
    end.
Proof.
  simpl. destruct (SyncMap.data c !! k) as [e |] eqn:Hk.
  - destruct (Z.ltb_spec (SyncMap.E e) cutoff).
    + apply map_lookup_filter_None. right. intros e' He'. simpl.
      simplify_eq. lia.
    + by apply map_lookup_filter_Some.
  - apply map_lookup_filter_None. by left.
Qed.

(** X7.  With no soft limit configured, as by default, a janitor tick
    removes the entries that expired more than [DeleteExpiredAfter] ago and
    nothing else, and emits nothing.  So an entry that expired within that
    period is still served as stale after the tick, a live entry is still
    served with its value (the period not being negative), and an entry
    that expired before it is not found. *)
Theorem janitor_removes_long_expired_only :
  ∀ (Value : Type)
    (Range : gmap string (SyncMap.entry Value)
             → list (string * SyncMap.entry Value))
    (sort_Slice : (SyncMap.en → SyncMap.en → bool)
                  → list SyncMap.en → list SyncMap.en)
    (c : SyncMap.syncMap Value) (now heapInuse : Z),
    (∀ m, Range m ≡ₚ map_to_list m) →
    cache.HeapInUseSoftLimit (SyncMap.Config (SyncMap.t c)) = 0 →
    cache.CountSoftLimit (SyncMap.Config (SyncMap.t c)) = 0 →
    min_int64 < cache.DeleteExpiredAfter (SyncMap.Config (SyncMap.t c))
    ≤ max_int64 →
    let grace := cache.DeleteExpiredAfter (SyncMap.Config (SyncMap.t c)) in
    ∃ c', SyncMap.janitor_tick Range sort_Slice now heapInuse c = Done c'
          ∧ SyncMap.emitted c' = SyncMap.emitted c
          ∧ (∀ k, SyncMap.data c' !! k
                  = match SyncMap.data c !! k with
                    | Some e => if SyncMap.E e <? now - grace then None
                                else Some e
                    | None => None
                    end)
          ∧ (∀ k e now',
               SyncMap.data c !! k = Some e →
               now - grace ≤ SyncMap.E e →
               (SyncMap.Read cache.Background k now' c').1
               = (SyncMap.Read cache.Background k now' c).1)
          ∧ (∀ k e now',
               SyncMap.data c !! k = Some e →
               SyncMap.E e < now - grace →
               (SyncMap.Read cache.Background k now' c').1
               = Done (None, Some cache.ErrNotFound))
          ∧ (∀ k e,
               SyncMap.data c !! k = Some e →
               0 ≤ grace → now ≤ SyncMap.E e →
               SyncMap.data c' !! k = Some e).
Proof.
  intros Value Range sort_Slice c now heapInuse HRange Hh Hc Hgrace grace.
  eexists. split; [by apply janitor_tick_no_limits |].
  split; [done |]. split; [intros k; apply afterDeleteExpired_lookup |].
  fold grace. split; [| split].
  - intros k e now' Hk Hkeep. apply Read_result_ext; [| done].
    rewrite afterDeleteExpired_lookup, Hk.
    destruct (Z.ltb_spec (SyncMap.E e) (now - grace)); [lia | done].
  - intros k e now' Hk Hold.
    rewrite Read_result. simpl cache.SkipRead. cbv iota.
    rewrite afterDeleteExpired_lookup, Hk.
    destruct (Z.ltb_spec (SyncMap.E e) (now - grace)); [done | lia].
  - intros k e Hk Hpos Hlive. rewrite afterDeleteExpired_lookup, Hk.
    destruct (Z.ltb_spec (SyncMap.E e) (now - grace)); [lia | done].
Qed.

Lemma janitor_removes_long_expired_only_witness :
  ∃ c', SyncMap.janitor_tick keyOrder insertionSort
          (24 * Hour + 300000002500) 0 abc = Done c'
        ∧ SyncMap.data c' !! "a" = None
        ∧ SyncMap.data c' !! "b" = None
        ∧ SyncMap.data c' !! "c" = Some entry_c
        ∧ (SyncMap.Read cache.Background "c" (24 * Hour + 300000002500) c').1
          = Done (None, Some (cache.errExpired entry_c)).
Proof.
  destruct (janitor_removes_long_expired_only string keyOrder insertionSort
              abc (24 * Hour + 300000002500) 0
              ltac:(intros; reflexivity) eq_refl eq_refl
              ltac:(vm_compute; split; [reflexivity | discriminate]))
    as (c' & Hrun & _ & Hdata & Hstale & _ & _).
  exists c'. split; [exact Hrun |].
  split; [rewrite Hdata; vm_compute; reflexivity |].
  split; [rewrite Hdata; vm_compute; reflexivity |].
  split; [rewrite Hdata; vm_compute; reflexivity |].
  rewrite (Hstale "c" entry_c);
    [vm_compute; reflexivity | vm_compute; reflexivity
     | vm_compute; discriminate].
Defined.

(** X8.  Expire all, then the janitor.  With no soft limit configured, a
    janitor tick that comes more than [DeleteExpiredAfter] after an
    [ExpireAll] leaves the store empty; a tick that comes earlier keeps
    every entry, as stale. *)
Theorem ExpireAll_then_janitor :
  ∀ (Value : Type)
    (Range : gmap string (SyncMap.entry Value)
             → list (string * SyncMap.entry Value))
    (sort_Slice : (SyncMap.en → SyncMap.en → bool)
                  → list SyncMap.en → list SyncMap.en)
    (c : SyncMap.syncMap Value) (ctx : cache.context)
    (start now heapInuse : Z),
    (∀ m, Range m ≡ₚ map_to_list m) →
    cache.HeapInUseSoftLimit (SyncMap.Config (SyncMap.t c)) = 0 →
    cache.CountSoftLimit (SyncMap.Config (SyncMap.t c)) = 0 →
    min_int64 < cache.DeleteExpiredAfter (SyncMap.Config (SyncMap.t c))
    ≤ max_int64 →
    let grace := cache.DeleteExpiredAfter (SyncMap.Config (SyncMap.t c)) in
    ∃ c', SyncMap.janitor_tick Range sort_Slice now heapInuse
            (SyncMap.ExpireAll Range ctx start c) = Done c'
          ∧ (start < now - grace → SyncMap.data c' = ∅)
          ∧ (now - grace ≤ start →
             SyncMap.data c' = expiredAt start <$> SyncMap.data c).
Proof.
  intros Value Range sort_Slice c ctx start now heapInuse HRange Hh Hc
    Hgrace grace.
  pose proof (ExpireAll_trait Range ctx start c) as Ht.
  eexists. split.
  { apply janitor_tick_no_limits; rewrite ?Ht; done. }
  rewrite Ht. fold grace. split; intros Hwhen; apply map_eq; intros k;
    rewrite afterDeleteExpired_lookup, (ExpireAll_lookup Range HRange),
      ?lookup_empty, ?lookup_fmap;
    destruct (SyncMap.data c !! k) as [e |]; simpl; try done.
  - destruct (Z.ltb_spec start (now - grace)); [done | lia].
  - destruct (Z.ltb_spec start (now - grace)); [lia | done].
Qed.

Lemma ExpireAll_then_janitor_witness :
  ∃ c', SyncMap.janitor_tick keyOrder insertionSort (5001 + 24 * Hour) 0
          (SyncMap.ExpireAll keyOrder cache.Background 5000 abc) = Done c'
        ∧ SyncMap.data c' = ∅.
Proof.
  destruct (ExpireAll_then_janitor string keyOrder insertionSort abc
              cache.Background 5000 (5001 + 24 * Hour) 0
              ltac:(intros; reflexivity) eq_refl eq_refl
              ltac:(vm_compute; split; [reflexivity | discriminate]))
    as (c' & Hrun & Hempty & _).
  exists c'. split; [exact Hrun |]. apply Hempty. vm_compute. reflexivity.
Defined.

(** ** More on eviction *)

Lemma StronglySorted_across {A : Type} (R : A → A → Prop) (l1 l2 : list A)
    x1 x2 :
  StronglySorted R (l1 ++ l2) → x1 ∈ l1 → x2 ∈ l2 → R x1 x2.
Proof.
  induction l1 as [| y l1 IH]; intros Hsorted Hx1 Hx2.
  - by apply elem_of_nil in Hx1.
  - simpl in Hsorted. apply StronglySorted_inv in Hsorted as [Htail Hall].
    apply elem_of_cons in Hx1 as [-> | Hx1]; [| by apply IH].
    rewrite Forall_forall in Hall. apply Hall, elem_of_app. by right.
Qed.

Section EvictionAge.

Context {Value : Type}.
Variable Range : gmap string (SyncMap.entry Value)
                 → list (string * SyncMap.entry Value).
Hypothesis Range_perm : ∀ m, Range m ≡ₚ map_to_list m.
Variable sort_Slice : (SyncMap.en → SyncMap.en → bool)
                      → list SyncMap.en → list SyncMap.en.
Hypothesis sort_Slice_perm : ∀ l, sort_Slice SyncMap.en_less l ≡ₚ l.
Hypothesis sort_Slice_sorted :
  ∀ l, StronglySorted (λ a b, SyncMap.en_less b a = false)
         (sort_Slice SyncMap.en_less l).

Implicit Types (m : gmap string (SyncMap.entry Value)).

(** The sorted slice holds, for every entry of the store, its key and its
    expiration, and nothing else. *)
Lemma order_elem m (x : SyncMap.en) :
  keyed m →
  x ∈ sort_Slice SyncMap.en_less (snapshot (Range m)) →
  ∃ e, m !! SyncMap.key x = Some e ∧ SyncMap.expireAt x = SyncMap.E e.
Proof.
  intros Hkeyed. rewrite sort_Slice_perm. unfold snapshot.
  intros Hx. apply list_elem_of_fmap in Hx as ([k e] & -> & Hin).
  apply (Range_lookup Range Range_perm) in Hin.
  exists e. simpl. by rewrite (Hkeyed k e Hin).
Qed.

Lemma elem_order m k e :
  keyed m →
  m !! k = Some e →
  {| SyncMap.expireAt := SyncMap.E e; SyncMap.key := k |}
  ∈ sort_Slice SyncMap.en_less (snapshot (Range m)).
Proof.
  intros Hkeyed Hk. rewrite sort_Slice_perm. unfold snapshot.
  apply list_elem_of_fmap. exists (k, e). split.
  - simpl. by rewrite (Hkeyed k e Hk).
  - rewrite Range_perm. by apply elem_of_map_to_list.
Qed.

Lemma evicted_not_younger_than_kept m n k e k' e' :
  keyed m →
  let order := sort_Slice SyncMap.en_less (snapshot (Range m)) in
  m !! k = Some e →
  deleteKeys (take n order) m !! k = None →
  deleteKeys (take n order) m !! k' = Some e' →
  SyncMap.E e ≤ SyncMap.E e'.
Proof.
  intros Hkeyed order Hk Hgone Hkept.
  rewrite deleteKeys_lookup in Hgone, Hkept.
  destruct (decide (k ∈ SyncMap.key <$> take n order)) as [Hin |];
    [| congruence].
  destruct (decide (k' ∈ SyncMap.key <$> take n order)) as [| Hout];
    [done |].
  apply list_elem_of_fmap in Hin as (x & -> & Hx).
  assert (x ∈ order) as Hxo by (by eapply subseteq_take).
  destruct (order_elem m x Hkeyed Hxo) as (e0 & He0 & Hexp).
  rewrite Hk in He0. injection He0 as <-.
  pose proof (elem_order m k' e' Hkeyed Hkept) as Hy. fold order in Hy.
  rewrite <- (take_drop n order) in Hy.
  apply elem_of_app in Hy as [Hy | Hy].
  { destruct Hout. apply list_elem_of_fmap. by eexists; split; [| exact Hy]. }
  pose proof (order_oldestFirst sort_Slice sort_Slice_sorted
                (snapshot (Range m))) as Hsorted.
  fold order in Hsorted. unfold oldestFirst in Hsorted.
  rewrite <- (take_drop n order) in Hsorted.
  pose proof (StronglySorted_across _ _ _ _ _ Hsorted Hx Hy) as Hle.
  simpl in Hle. lia.
Qed.

End EvictionAge.

(** X9.  Eviction takes the oldest.  Under what [sort.Slice] and
    [sync.Map.Range] promise, with every entry under its own key and the
    number of evictions within the number of entries, every entry that
    [evictOldest] deletes expires no later than every entry it keeps. *)
Theorem evictOldest_takes_the_oldest :
  ∀ (Value : Type)
    (Range : gmap string (SyncMap.entry Value)
             → list (string * SyncMap.entry Value))
    (sort_Slice : (SyncMap.en → SyncMap.en → bool)
                  → list SyncMap.en → list SyncMap.en)
    (c : SyncMap.syncMap Value),
    (∀ m, Range m ≡ₚ map_to_list m) →
    (∀ l, sort_Slice SyncMap.en_less l ≡ₚ l) →
    (∀ l, StronglySorted (λ a b, SyncMap.en_less b a = false)
            (sort_Slice SyncMap.en_less l)) →
    keyed (SyncMap.data c) →
    0 ≤ evictItems c (size (SyncMap.data c))
    ≤ Z.of_nat (size (SyncMap.data c)) →
    ∃ c', SyncMap.evictOldest Range sort_Slice c = Done c'
          ∧ ∀ k e k' e',
              SyncMap.data c !! k = Some e →
              SyncMap.data c' !! k = None →
              SyncMap.data c' !! k' = Some e' →
              SyncMap.E e ≤ SyncMap.E e'.
Proof.
  intros Value Range sort_Slice c HRange Hperm Hsorted Hkeyed Hn.
  destruct (evictOldest_in_range Range HRange sort_Slice Hperm c Hkeyed Hn)
    as (c' & Hrun & Hdata & _).
  exists c'. split; [done |]. rewrite Hdata.
  intros k e k' e'.
  by apply (evicted_not_younger_than_kept Range HRange sort_Slice Hperm
              Hsorted).
Qed.

Lemma evictOldest_takes_the_oldest_witness :
  ∃ c', SyncMap.evictOldest keyOrder insertionSort abcHalf = Done c'
        ∧ (SyncMap.data c' !! "a" = None →
           SyncMap.data c' !! "c" = Some entry_c →
           SyncMap.E entry_a ≤ SyncMap.E entry_c).
Proof.
  destruct (evictOldest_takes_the_oldest string keyOrder insertionSort
              abcHalf
              ltac:(intros; reflexivity)
              (insertionSort_perm SyncMap.en_less)
              insertionSort_sorted
              ltac:(repeat apply keyed_Write; apply keyed_NewSyncMap)
              ltac:(vm_compute; split; discriminate))
    as (c' & Hrun & Hage).
  exists c'. split; [exact Hrun |].
  apply (Hage "a" entry_a "c" entry_c). vm_compute. reflexivity.
Defined.

Lemma evict_loop_none {Value : Type} i n rest
    (m : gmap string (SyncMap.entry Value)) :
  n ≤ i → SyncMap.evict_loop i n rest m = Done m.
Proof.
  intros Hle. destruct rest; simpl;
    by destruct (Z.ltb_spec i n); [lia |].
Qed.

(** X10.  Eviction out of bounds.  When the number [evictOldest] computes,
    [int(float64(len) * fraction)], is zero or negative, it deletes nothing
    and still publishes that number as the eviction count; when it exceeds
    the number of entries, the loop runs off the slice and [evictOldest]
    panics. *)
Theorem evictOldest_out_of_bounds :
  ∀ (Value : Type)
    (Range : gmap string (SyncMap.entry Value)
             → list (string * SyncMap.entry Value))
    (sort_Slice : (SyncMap.en → SyncMap.en → bool)
                  → list SyncMap.en → list SyncMap.en)
    (c : SyncMap.syncMap Value),
    (∀ m, Range m ≡ₚ map_to_list m) →
    (∀ l, sort_Slice SyncMap.en_less l ≡ₚ l) →
    let n := evictItems c (size (SyncMap.data c)) in
    (n ≤ 0 →
     SyncMap.evictOldest Range sort_Slice c
     = Done (SyncMap.emit c (SyncMap.data c)
               (SyncMap.statAdd (SyncMap.t c) cache.MetricEvict
                  (float64_of_int n))))
    ∧ (Z.of_nat (size (SyncMap.data c)) < n →
       SyncMap.evictOldest Range sort_Slice c = Panic "index out of range").
Proof.
  intros Value Range sort_Slice c HRange Hperm n.
  rewrite (evictOldest_unfold Range HRange sort_Slice Hperm). simpl.
  fold n. split; intros Hn.
  - by rewrite evict_loop_none.
  - rewrite evict_loop_overrun; [done |].
    rewrite (order_length Range HRange sort_Slice Hperm). lia.
Qed.

Lemma evictOldest_out_of_bounds_witness :
  (∃ c', SyncMap.evictOldest keyOrder insertionSort
           (abcWith [withEviction 2 (-0x1p-1); withStats]) = Done c'
         ∧ SyncMap.data c'
           = SyncMap.data (abcWith [withEviction 2 (-0x1p-1); withStats])
         ∧ last (SyncMap.emitted c')
           = Some (cache.StatAdd cache.MetricEvict (-1)))
  ∧ SyncMap.evictOldest keyOrder insertionSort
      (abcWith [withEviction 2 0x1p+1])
    = Panic "index out of range".
Proof.
  split.
  - destruct (evictOldest_out_of_bounds string keyOrder insertionSort
                (abcWith [withEviction 2 (-0x1p-1); withStats])
                ltac:(intros; reflexivity)
                (insertionSort_perm SyncMap.en_less)) as [Hnone _].
    eexists. split; [apply Hnone; vm_compute; discriminate |].
    split; [reflexivity | vm_compute; reflexivity].
  - destruct (evictOldest_out_of_bounds string keyOrder insertionSort
                (abcWith [withEviction 2 0x1p+1])
                ltac:(intros; reflexivity)
                (insertionSort_perm SyncMap.en_less)) as [_ Hover].
    apply Hover. vm_compute. reflexivity.
Defined.

(** ** More on snapshots *)

Section SnapshotFacts.

Context {Value : Type}.
Implicit Types (m : gmap string (SyncMap.entry Value)).
Implicit Types (records : list (SyncMap.entry Value)).
Implicit Types (c : SyncMap.syncMap Value).

Lemma Restore_records records c :
  SyncMap.Restore (inl <$> records) c
  = ((Z.of_nat (length records), None),
     SyncMap.emit c (storeAll records (SyncMap.data c)) []).
Proof.
  unfold SyncMap.Restore.
  pose proof (restore_loop_records records [] 0 (SyncMap.data c)) as Hloop.
  rewrite app_nil_r in Hloop. by rewrite Hloop.
Qed.

Lemma storeAll_twice records m :
  storeAll records (storeAll records m) = storeAll records m.
Proof.
  apply map_eq. intros k. rewrite !storeAll_lookup.
  by destruct (lastRecord k records).
Qed.

Lemma storeAll_size records m :
  (size (storeAll records m) ≤ size m + length records)%nat.
Proof.
  revert m. induction records as [| e records IH]; intros m; simpl; [lia |].
  unfold storeAll in *. simpl. etransitivity; [apply IH |].
  rewrite map_size_insert. destruct (m !! SyncMap.K e); simpl; lia.
Qed.




End SnapshotFacts.

(** X11.  [Restore] can be replayed: restoring the same records a second
    time returns the same count and leaves the store as the first time
    left it.  The count is the number of records read, not of entries
    added: the store grows by at most that number.  An empty input returns
    0 and no error and leaves the store as it was. *)
Theorem Restore_replay :
  ∀ (Value : Type) (records : list (SyncMap.entry Value))
    (c : SyncMap.syncMap Value),
    let once := (SyncMap.Restore (inl <$> records) c).2 in
    (SyncMap.Restore (inl <$> records) once).1
    = (Z.of_nat (length records), None)
    ∧ SyncMap.data (SyncMap.Restore (inl <$> records) once).2
      = SyncMap.data once
    ∧ (size (SyncMap.data once)
       ≤ size (SyncMap.data c) + length records)%nat
    ∧ (SyncMap.Restore [] c).1 = (0, None)
    ∧ SyncMap.data (SyncMap.Restore [] c).2 = SyncMap.data c.
Proof.
  intros Value records c once. subst once.
  rewrite !Restore_records. simpl.
  split; [done |]. split; [apply storeAll_twice |].
  split; [apply storeAll_size | done].
Qed.



(** ** More on the exported trait *)


Lemma tsTime_ts ns : TraitGo.ts (TraitGo.tsTime ns) = ns.
Proof.
  unfold TraitGo.ts, TraitGo.tsTime, Time_Unix, Second.
  pose proof (Z.quot_rem' ns 1000000000). lia.
Qed.

(** X14.  What an expired error of [Trait] exposes.  When [PrepareRead]
    finds an entry whose expiration is not 0 and before now, the error it
    returns carries that entry: its [Value] is the stale value, and its
    [ExpiredAt], like the entry's [ExpireAt], is a time whose nanosecond
    timestamp is the stored expiration again, for negative timestamps
    too. *)
Theorem expired_error_exposes_entry :
  ∀ (Value B : Type) (C : TraitGo.Trait B) (now : Z)
    (e : TraitGo.TraitEntry Value),
    TraitGo.E e ≠ 0 →
    TraitGo.E e < now →
    ∃ carried,
      (TraitGo.PrepareRead C now (Some e) true).1
      = Done (None, Some (cache.errExpired carried))
      ∧ TraitGo.errExpired_Value carried = TraitGo.V e
      ∧ TraitGo.ts (TraitGo.errExpired_ExpiredAt carried) = TraitGo.E e
      ∧ TraitGo.ts (TraitGo.ExpireAt e) = TraitGo.E e.
Proof.
  intros Value B C now e Hnz Hlt. exists e.
  split; [by apply PrepareRead_expired |].
  split; [done |].
  unfold TraitGo.errExpired_ExpiredAt, TraitGo.ExpireAt.
  by rewrite tsTime_ts.
Qed.

Lemma expired_error_exposes_entry_witness :
  ∃ carried,
    (TraitGo.PrepareRead (TraitGo.NewTrait cache.zeroConfig counterOptions)
       1000
       (Some {| TraitGo.K := "k"; TraitGo.V := "v"%string;
                TraitGo.E := -1500000000 |}) true).1
    = Done (None, Some (cache.errExpired carried))
    ∧ TraitGo.errExpired_Value carried = "v"%string
    ∧ TraitGo.ts (TraitGo.errExpired_ExpiredAt carried) = -1500000000.
Proof.
  destruct (expired_error_exposes_entry string Z
              (TraitGo.NewTrait cache.zeroConfig counterOptions) 1000
              {| TraitGo.K := "k"; TraitGo.V := "v"%string;
                 TraitGo.E := -1500000000 |}
              ltac:(discriminate) ltac:(reflexivity))
    as (carried & Hread & Hval & Hat & _).
  exists carried. split; [exact Hread |]. split; [exact Hval | exact Hat].
Defined.

(** X15.  The janitor of [Trait] calls only what the backend installed.
    [NewTrait] starts no janitor exactly when neither [DeleteExpired] nor
    [EvictOldest] is installed, and a tick would then do nothing.  Without
    [EvictOldest] a tick only deletes the expired entries, whatever the
    limits.  Without [Len] the count limit is never reached: with no heap
    limit set a tick does not evict. *)
Theorem Trait_janitor_calls_installed_callbacks_only :
  ∀ (B : Type) (C : TraitGo.Trait B) (now heapInuse : Z) (b : B),
    (TraitGo.janitor_started C = false
     ↔ TraitGo.DeleteExpired C = None ∧ TraitGo.EvictOldest C = None)
    ∧ (TraitGo.janitor_started C = false →
       TraitGo.janitor_tick C now heapInuse b = (b, [], []))
    ∧ (∀ deleteExpired,
         TraitGo.DeleteExpired C = Some deleteExpired →
         TraitGo.EvictOldest C = None →
         let cutoff :=
           now + wrap64 (- cache.DeleteExpiredAfter (TraitGo.Config C)) in
         TraitGo.janitor_tick C now heapInuse b
         = (deleteExpired cutoff b, [TraitGo.CallDeleteExpired cutoff], []))
    ∧ (TraitGo.DeleteExpired C = None →
       TraitGo.Len C = None →
       cache.HeapInUseSoftLimit (TraitGo.Config C) = 0 →
       TraitGo.janitor_tick C now heapInuse b = (b, [], [])).
Proof.
  intros B C now heapInuse b.
  unfold TraitGo.janitor_started, TraitGo.janitor_tick,
    TraitGo.heapInUseOverflow, TraitGo.countOverflow, Time_Add.
  split; [| split; [| split]].
  - destruct (TraitGo.DeleteExpired C), (TraitGo.EvictOldest C); simpl;
      split; (intros [? ?] || intros ?); done.
  - destruct (TraitGo.DeleteExpired C), (TraitGo.EvictOldest C); simpl;
      intros ?; done.
  - intros deleteExpired -> ->. done.
  - intros -> -> ->. simpl. by destruct (TraitGo.EvictOldest C).
Qed.

Lemma Trait_janitor_calls_installed_callbacks_only_witness :
  TraitGo.janitor_tick (TraitGo.NewTrait (B := Z) cache.zeroConfig [])
    5000 0 3 = (3, [], [])
  ∧ TraitGo.janitor_tick
      (TraitGo.NewTrait cache.zeroConfig [withDeleteExpired (λ _ b, b - 1)])
      5000 0 3
    = (2, [TraitGo.CallDeleteExpired (5000 - 24 * Hour)], [])
  ∧ TraitGo.janitor_tick
      (TraitGo.NewTrait (withEviction 2 0x1p-1 cache.zeroConfig)
         [withEvictOldest counterEvict])
      5000 0 3 = (3, [], []).
Proof.
  split; [| split].
  - destruct (Trait_janitor_calls_installed_callbacks_only Z
                (TraitGo.NewTrait cache.zeroConfig []) 5000 0 3)
      as (_ & Hidle & _).
    by apply Hidle.
  - destruct (Trait_janitor_calls_installed_callbacks_only Z
                (TraitGo.NewTrait cache.zeroConfig
                   [withDeleteExpired (λ _ b, b - 1)]) 5000 0 3)
      as (_ & _ & Hdelete & _).
    by rewrite (Hdelete (λ _ b, b - 1) eq_refl eq_refl).
  - destruct (Trait_janitor_calls_installed_callbacks_only Z
                (TraitGo.NewTrait (withEviction 2 0x1p-1 cache.zeroConfig)
                   [withEvictOldest counterEvict]) 5000 0 3)
      as (_ & _ & _ & Hnolen).
    by apply Hnolen.
Defined.

(** ** The items gauge *)

(** X16.  The items reporter.  A tick of [reportItemsCount] on the
    [syncMap] backend leaves the store alone and, with a metrics sink,
    sets the items gauge to the number of entries, expired ones included;
    closing the cache sets it once more.  [newTrait] starts the reporter
    exactly when the trait has a sink.  [NewTrait] starts it only when
    [Len] is installed, so a started reporter does not panic, and its
    gauge is what [Len] returns. *)
Theorem items_gauge_is_Len :
  ∀ (Value B : Type)
    (Range : gmap string (SyncMap.entry Value)
             → list (string * SyncMap.entry Value))
    (c : SyncMap.syncMap Value) (config : cache.Config)
    (options : list (TraitGo.Trait B → TraitGo.Trait B)) (b : B),
    (∀ m, Range m ≡ₚ map_to_list m) →
    let gauge :=
      if SyncMap.Stat (SyncMap.t c)
      then [cache.StatSet cache.MetricItems
              (float64_of_int (Z.of_nat (size (SyncMap.data c))))]
      else [] in
    let T := TraitGo.NewTrait config options in
    SyncMap.data (SyncMap.reportItemsCount_tick Range c) = SyncMap.data c
    ∧ SyncMap.emitted (SyncMap.reportItemsCount_tick Range c)
      = SyncMap.emitted c
        ++ SyncMap.logDebug (SyncMap.t c) "cache items count" ++ gauge
    ∧ SyncMap.emitted (SyncMap.reportItemsCount_closed Range c)
      = SyncMap.emitted c
        ++ SyncMap.logDebug (SyncMap.t c)
             "closing cache items counter goroutine" ++ gauge
    ∧ SyncMap.reporter_started config
      = SyncMap.Stat (SyncMap.newTrait config)
    ∧ (TraitGo.reporter_started config T = true →
       ∃ len, TraitGo.Len T = Some len
              ∧ TraitGo.reportItemsCount_tick T b
                = Done (TraitGo.logDebug T "cache items count"
                        ++ TraitGo.statSet T cache.MetricItems
                             (float64_of_int (len b)))).
Proof.
  intros Value B Range c config options b HRange gauge T.
  unfold SyncMap.reportItemsCount_tick, SyncMap.reportItemsCount_closed,
    SyncMap.statSet.
  rewrite !(Len_size Range HRange). simpl.
  do 4 (split; [done |]).
  unfold TraitGo.reporter_started, TraitGo.reportItemsCount_tick.
  intros Hstarted. apply andb_true_iff in Hstarted as [_ Hlen].
  apply bool_decide_eq_true in Hlen as [len Hlen].
  exists len. by rewrite Hlen.
Qed.

Lemma items_gauge_is_Len_witness :
  last (SyncMap.emitted (SyncMap.reportItemsCount_tick keyOrder abcHalf))
  = Some (cache.StatSet cache.MetricItems 3)
  ∧ ∃ len,
      TraitGo.Len (TraitGo.NewTrait (withStats cache.zeroConfig)
                     counterOptions) = Some len
      ∧ TraitGo.reportItemsCount_tick
          (TraitGo.NewTrait (withStats cache.zeroConfig) counterOptions) 7
        = Done [cache.StatSet cache.MetricItems (float64_of_int (len 7))].
Proof.
  destruct (items_gauge_is_Len string Z keyOrder abcHalf
              (withStats cache.zeroConfig) counterOptions 7
              ltac:(intros; reflexivity))
    as (_ & Htick & _ & _ & Hstarted).
  split.
  - rewrite Htick. vm_compute. reflexivity.
  - destruct (Hstarted eq_refl) as (len & Hlen & Hrun).
    exists len. split; [exact Hlen | exact Hrun].
Defined.

(** ** Expiry without jitter *)

(** X17.  With jitter switched off (an [ExpirationJitter] that is not
    positive) the TTL of a write on the [syncMap] backend is exact: the
    per-call override when there is one, the configured [TimeToLive]
    otherwise.  The entry is then served with its value up to and
    including the instant of the write plus that TTL and as expired from
    the next instant on. *)
Theorem exact_expiry_without_jitter :
  ∀ (Value : Type) (c : SyncMap.syncMap Value) (ctx ctx' : cache.context)
    (k : string) (v : Value) (now now' : Z) (r : float),
    PrimFloat.ltb 0 (cache.ExpirationJitter (SyncMap.Config (SyncMap.t c)))
    = false →
    cache.SkipRead ctx' = false →
    let ttl := if cache.TTL ctx =? 0
               then cache.TimeToLive (SyncMap.Config (SyncMap.t c))
               else cache.TTL ctx in
    SyncMap.TTL (SyncMap.t c) ctx r = ttl
    ∧ (SyncMap.Read ctx' k now' (SyncMap.Write ctx k v now r c).2).1
      = (if now + ttl <? now'
         then Done (None, Some (cache.errExpired
                 {| SyncMap.K := k; SyncMap.V := v;
                    SyncMap.E := now + ttl |}))
         else Done (Some v, None)).
Proof.
  intros Value c ctx ctx' k v now now' r Hjitter Hskip ttl.
  assert (SyncMap.TTL (SyncMap.t c) ctx r = ttl) as Httl.
  { unfold SyncMap.TTL. by rewrite Hjitter. }
  split; [done |]. rewrite Write_then_Read by done. by rewrite Httl.
Qed.

Lemma exact_expiry_without_jitter_witness :
  let c := SyncMap.NewSyncMap [withExpirationJitter (-1)] in
  let ctx := cache.WithTTL cache.Background 50 in
  (SyncMap.Read cache.Background "k" 1050
     (SyncMap.Write ctx "k" "v"%string 1000 0 c).2).1
  = Done (Some "v"%string, None)
  ∧ (SyncMap.Read cache.Background "k" 1051
       (SyncMap.Write ctx "k" "v"%string 1000 0 c).2).1
    = Done (None, Some (cache.errExpired
              {| SyncMap.K := "k"; SyncMap.V := "v"%string;
                 SyncMap.E := 1050 |})).
Proof.
  intros c ctx. split.
  - destruct (exact_expiry_without_jitter string c ctx cache.Background
                "k" "v"%string 1000 1050 0 eq_refl eq_refl) as [_ Hread].
    exact Hread.
  - destruct (exact_expiry_without_jitter string c ctx cache.Background
                "k" "v"%string 1000 1051 0 eq_refl eq_refl) as [_ Hread].
    exact Hread.
Defined.

(** ** The store stays keyed *)

Section KeyedInvariant.

Context {Value : Type}.
Implicit Types (m : gmap string (SyncMap.entry Value)).
Implicit Types (c : SyncMap.syncMap Value).






End KeyedInvariant.



(** ** The janitor under pressure *)



(** ** Unlimited entries on the exported trait *)

(** X20.  On [Trait], a configured [TimeToLive] of [UnlimitedTTL] with no
    per-call override makes entries that never expire: [TTL] is 0 whatever
    the jitter and the random sample, [expireAt] returns the sentinel, and
    [PrepareRead] returns an entry stamped with it with its value at every
    instant. *)
Theorem Trait_configured_unlimited_never_expires :
  ∀ (Value B : Type) (C : TraitGo.Trait B) (now now' : Z) (r : float)
    (k : string) (v : Value),
    cache.TimeToLive (TraitGo.Config C) = cache.UnlimitedTTL →
    TraitGo.TTL C cache.Background r = 0
    ∧ TraitGo.expireAt C cache.Background now r = (0, 0)
    ∧ (TraitGo.PrepareRead C now'
         (Some {| TraitGo.K := k; TraitGo.V := v;
                  TraitGo.E :=
                    (TraitGo.expireAt C cache.Background now r).2 |})
         true).1
      = Done (Some v, None).
Proof.
  intros Value B C now now' r k v Hcfg.
  pose proof (Trait_TTL_unlimited_config C r Hcfg) as Httl.
  split; [done |].
  by apply (expireAt_zero_ttl_never_expires C cache.Background now r k v now').
Qed.

Lemma Trait_configured_unlimited_never_expires_witness :
  let C := TraitGo.NewTrait (withTimeToLive cache.UnlimitedTTL cache.zeroConfig)
             counterOptions in
  TraitGo.expireAt C cache.Background 1000 0 = (0, 0)
  ∧ (TraitGo.PrepareRead C (1000 + 1000 * Hour)
       (Some {| TraitGo.K := "k"; TraitGo.V := "v"%string;
                TraitGo.E := (TraitGo.expireAt C cache.Background 1000 0).2 |})
       true).1
    = Done (Some "v"%string, None).
Proof.
  intros C.
  destruct (Trait_configured_unlimited_never_expires string Z C 1000
              (1000 + 1000 * Hour) 0 "k" "v"%string eq_refl)
    as (_ & Hstamp & Hread).
  split; [exact Hstamp | exact Hread].
Defined.

(** ** More on ExpireAll *)

Lemma ExpireAll_emitted {Value : Type}
    (Range : gmap string (SyncMap.entry Value)
             → list (string * SyncMap.entry Value))
    ctx start (c : SyncMap.syncMap Value) :
  (∀ m, Range m ≡ₚ map_to_list m) →
  SyncMap.emitted (SyncMap.ExpireAll Range ctx start c)
  = SyncMap.emitted c
    ++ SyncMap.NotifyExpiredAll (SyncMap.t c)
         (Z.of_nat (size (SyncMap.data c))).
Proof.
  intros HRange. unfold SyncMap.ExpireAll.
  destruct (foldl_rewrite_entries (expiredAt start)
              (Range (SyncMap.data c)) (SyncMap.data c) 0
              (Range_NoDup_keys Range HRange _)) as (m' & Hfold & _).
  unfold expiredAt in Hfold. rewrite Hfold. simpl.
  by rewrite (Range_length Range HRange).
Qed.

(** X21.  [ExpireAll] counts and overrides.  What it adds to the expired
    metric is the number of entries of the store; it expires every entry,
    whatever expiration it had; and of two [ExpireAll] in a row the later
    instant is the one the entries keep, be it the earlier one on the
    clock. *)
Theorem ExpireAll_counts_and_overrides :
  ∀ (Value : Type)
    (Range : gmap string (SyncMap.entry Value)
             → list (string * SyncMap.entry Value))
    (c : SyncMap.syncMap Value) (ctx : cache.context) (start start' : Z),
    (∀ m, Range m ≡ₚ map_to_list m) →
    added (SyncMap.emitted (SyncMap.ExpireAll Range ctx start c))
    = added (SyncMap.emitted c)
      ++ (if SyncMap.Stat (SyncMap.t c)
          then [(cache.MetricExpired,
                 float64_of_int (Z.of_nat (size (SyncMap.data c))))]
          else [])
    ∧ SyncMap.data
        (SyncMap.ExpireAll Range ctx start'
           (SyncMap.ExpireAll Range ctx start c))
      = SyncMap.data (SyncMap.ExpireAll Range ctx start' c)
    ∧ (∀ k e, SyncMap.data (SyncMap.ExpireAll Range ctx start c) !! k
              = Some e → SyncMap.E e = start).
Proof.
  intros Value Range c ctx start start' HRange. split; [| split].
  - rewrite ExpireAll_emitted by done. unfold SyncMap.NotifyExpiredAll.
    by rewrite !added_app, added_logImportant, added_statAdd.
  - rewrite !(ExpireAll_data Range HRange). rewrite <- map_fmap_compose.
    done.
  - intros k e. rewrite (ExpireAll_lookup Range HRange).
    destruct (SyncMap.data c !! k); [| done]. by intros [= <-].
Qed.

Lemma ExpireAll_counts_and_overrides_witness :
  last (added (SyncMap.emitted
                 (SyncMap.ExpireAll keyOrder cache.Background 5000 abcHalf)))
  = Some (cache.MetricExpired, 3%float)
  ∧ SyncMap.data
      (SyncMap.ExpireAll keyOrder cache.Background 4000
         (SyncMap.ExpireAll keyOrder cache.Background 5000 abcHalf))
    = SyncMap.data (SyncMap.ExpireAll keyOrder cache.Background 4000 abcHalf).
Proof.
  destruct (ExpireAll_counts_and_overrides string keyOrder abcHalf
              cache.Background 5000 4000 ltac:(intros; reflexivity))
    as (Hcount & Hover & _).
  split; [rewrite Hcount; vm_compute; reflexivity | exact Hover].
Defined.
